(** * Collaborative canvas: the server-side collaboration core

  A shallow embedding of [server/VectorClock.js], [server/OperationLog.js]
  and [server/RoomManager.js], and the properties of the vector clock, the
  operation log and the room manager proved about it.

  Conventions of the embedding.
  - A JavaScript object used as a dictionary ([VectorClock.clock]) and the
    [Map]s of the room manager are finite maps ([gmap]) with string keys.
  - Methods that mutate [this] take the receiver and return the new
    receiver next to their result.
  - [Date.now()] and [Math.random()] are inputs of the method that reads
    them: a clock reading [now : Z] and the already formatted random suffix
    [nonce : string] (for [Math.random().toString(36).substr(2, 9)]).  The
    readings of [Date.now()] within one call are one reading.
  - A value that may be [null]/[undefined] is an [option].
  - The user objects of the room manager are shared between two maps and
    mutated in place; they live in a store and the maps hold addresses.
  - [Array.prototype.sort] is the stable insertion sort. *)

From stdpp Require Import gmap strings list fin_maps pretty.
From Stdlib Require Import ZArith Lia Sorted Permutation.

(** ** VectorClock *)

Module VectorClock.

(** [this.clock]: userId -> counter. *)
Abbreviation Clock := (gmap string Z).

(** [clock[userId] || 0]: a missing key and a stored zero both read 0. *)
Definition read (c : Clock) (userId : string) : Z :=
  default 0%Z (c !! userId).

(** [increment(userId)]; the returned snapshot [getClock()] is the new clock. *)
Definition increment (c : Clock) (userId : string) : Clock :=
  <[userId := (read c userId + 1)%Z]> c.

(** [update(remoteClock)]: the loop over [Object.entries(remoteClock)]. *)
Definition update (c : Clock) (remoteClock : option Clock) : Clock :=
  match remoteClock with
  | None => c
  | Some remote =>
      map_fold (fun userId timestamp acc =>
                  <[userId := Z.max (read acc userId) timestamp]> acc)
               c remote
  end.

Definition getClock (c : Clock) : Clock := c.

(** The union of the keys of both clocks, [new Set([...keys(A), ...keys(B)])]. *)
Definition allUsers (clockA clockB : Clock) : list string :=
  elements (dom clockA ∪ dom clockB).

(** One iteration of the loop of [compare] on the pair
    [(hasLess, hasGreater)]. *)
Definition compare_step (clockA clockB : Clock)
    (flags : bool * bool) (userId : string) : bool * bool :=
  let valueA := read clockA userId in
  let valueB := read clockB userId in
  (if (valueA <? valueB)%Z then true else flags.1,
   if (valueA >? valueB)%Z then true else flags.2).

Definition compare_flags (clockA clockB : Clock) : bool * bool :=
  foldl (compare_step clockA clockB) (false, false) (allUsers clockA clockB).

(** [compare(clockA, clockB)]: -1, 0 or 1. *)
Definition compare (clockA clockB : option Clock) : Z :=
  match clockA, clockB with
  | Some a, Some b =>
      let '(hasLess, hasGreater) := compare_flags a b in
      if hasLess && negb hasGreater then (-1)%Z
      else if hasGreater && negb hasLess then 1%Z
      else 0%Z
  | _, _ => 0%Z
  end.

Definition happensBefore (clockA clockB : option Clock) : bool :=
  bool_decide (compare clockA clockB = (-1)%Z).

Definition areConcurrent (clockA clockB : option Clock) : bool :=
  bool_decide (compare clockA clockB = 0%Z).

(** What [sortEvents] reads of an event: [e.vectorClock] and [e.timestamp]. *)
Class Event (E : Type) := {
  vectorClock : E -> option Clock;
  timestamp : E -> Z
}.

(** The comparator passed to [events.sort] by [sortEvents]. *)
Definition sortEvents_cmp {E} `{Event E} (a b : E) : Z :=
  match vectorClock a, vectorClock b with
  | Some clockA, Some clockB =>
      let comparison := compare (Some clockA) (Some clockB) in
      if negb (comparison =? 0)%Z then comparison
      else (timestamp a - timestamp b)%Z
  | _, _ => (timestamp a - timestamp b)%Z
  end.

(** [Array.prototype.sort(cmp)] is a stable sort; it is modelled as the
    stable insertion sort: an element moves right past the elements it
    compares strictly greater than. *)
Section ArraySort.
Context {A : Type} (cmp : A -> A -> Z).

Fixpoint sort_insert (x : A) (l : list A) : list A :=
  match l with
  | [] => [x]
  | y :: l' => if (cmp x y >? 0)%Z then y :: sort_insert x l' else x :: l
  end.

Definition array_sort (l : list A) : list A := foldr sort_insert [] l.

End ArraySort.

(** [VectorClock.sortEvents(events)]. *)
Definition sortEvents {E} `{Event E} (events : list E) : list E :=
  array_sort sortEvents_cmp events.

(** [VectorClock.merge(...clocks)]: a [null] clock is skipped; the others
    are folded into [merged], which starts empty. *)
Definition merge (clocks : list (option Clock)) : Clock :=
  foldl (fun merged clock =>
           match clock with
           | None => merged
           | Some c =>
               map_fold (fun userId timestamp acc =>
                           <[userId := Z.max (read acc userId) timestamp]> acc)
                        merged c
           end)
        ∅ clocks.

(** [reset()]. *)
Definition reset (c : Clock) : Clock := ∅.

(** [size()]: the number of users tracked. *)
Definition tracked (c : Clock) : nat := size c.

End VectorClock.

(** ** OperationLog *)

Module OperationLog.

(** [operation.data]: the stroke sent by the client (kept as an opaque
    document) or the record built by [clearOperations]. *)
Inductive Payload :=
  | Stroke (document : string)
  | ClearInfo (clearedCount : nat) (timestamp : Z).

(** An entry of [this.operations].  [op_state] is the string the code
    compares with [STATES.ACTIVE] and [STATES.UNDONE]; the four audit fields
    are absent until an undo or redo sets them. *)
Record Operation := mkOperation {
  op_id : string;
  op_type : string;
  op_data : Payload;
  op_userId : string;
  op_state : string;
  op_vectorClock : option VectorClock.Clock;
  op_timestamp : Z;
  op_roomId : string;
  op_undoneBy : option string;
  op_undoneAt : option Z;
  op_redoneBy : option string;
  op_redoneAt : option Z
}.

#[global] Instance operation_event : VectorClock.Event Operation := {
  VectorClock.vectorClock := op_vectorClock;
  VectorClock.timestamp := op_timestamp
}.

(** The fields of an [OperationLog] that change or are read below;
    [maxOperations], [STATES] and [TYPES] are set once by the constructor. *)
Record t := mkLog {
  roomId : string;
  operations : list Operation;
  vectorClock : VectorClock.Clock;
  createdAt : Z
}.

Definition STATES_ACTIVE : string := "active".
Definition STATES_UNDONE : string := "undone".
Definition TYPES_STROKE : string := "stroke".
Definition TYPES_CLEAR : string := "clear".
Definition maxOperations : nat := 1000.

(** [new OperationLog(roomId)]. *)
Definition new (room : string) (now : Z) : t :=
  {| roomId := room; operations := []; vectorClock := ∅; createdAt := now |}.

Definition with_operations (log : t) (ops : list Operation) : t :=
  {| roomId := roomId log; operations := ops;
     vectorClock := vectorClock log; createdAt := createdAt log |}.

(** [generateOperationId(userId)]. *)
Definition generateOperationId (userId : string) (now : Z) (nonce : string) : string :=
  userId +:+ "_" +:+ pretty now +:+ "_" +:+ nonce.

(** [trimOperations()]: [slice(toRemove)] drops from the front. *)
Definition trimOperations (log : t) : t :=
  if decide (maxOperations < length (operations log)) then
    let toRemove := length (operations log) - maxOperations in
    with_operations log (drop toRemove (operations log))
  else log.

(** [addOperation(userId, type, data)]. *)
Definition addOperation (log : t) (userId type : string) (data : Payload)
    (now : Z) (nonce : string) : Operation * t :=
  let clock := VectorClock.increment (vectorClock log) userId in
  let operation :=
    {| op_id := generateOperationId userId now nonce;
       op_type := type;
       op_data := data;
       op_userId := userId;
       op_state := STATES_ACTIVE;
       op_vectorClock := Some (VectorClock.getClock clock);
       op_timestamp := now;
       op_roomId := roomId log;
       op_undoneBy := None; op_undoneAt := None;
       op_redoneBy := None; op_redoneAt := None |} in
  (operation,
   trimOperations
     {| roomId := roomId log; operations := operations log ++ [operation];
        vectorClock := clock; createdAt := createdAt log |}).

(** The outcome of [undoOperation] and [redoOperation]:
    [{success: true, operation}] or [{success: false, error}]. *)
Inductive Result :=
  | Success (operation : Operation)
  | Failure (error : string).

Definition has_id (operationId : string) (op : Operation) : bool :=
  bool_decide (op_id op = operationId).

(** [getOperation(operationId)]: [this.operations.find(op => op.id === operationId)]. *)
Definition getOperation (log : t) (operationId : string) : option Operation :=
  List.find (has_id operationId) (operations log).

Definition hasOperation (log : t) (operationId : string) : bool :=
  existsb (has_id operationId) (operations log).

(** Assignment to fields of the object that [find] returned: the first
    entry that satisfies the predicate is replaced by its mutated version.
    (Every entry of the array is an object of its own.) *)
Fixpoint mutate_first (P : Operation -> bool) (f : Operation -> Operation)
    (ops : list Operation) : list Operation :=
  match ops with
  | [] => []
  | op :: rest => if P op then f op :: rest else op :: mutate_first P f rest
  end.

Definition mark_undone (userId : string) (now : Z) (op : Operation) : Operation :=
  {| op_id := op_id op; op_type := op_type op; op_data := op_data op;
     op_userId := op_userId op; op_state := STATES_UNDONE;
     op_vectorClock := op_vectorClock op; op_timestamp := op_timestamp op;
     op_roomId := op_roomId op;
     op_undoneBy := Some userId; op_undoneAt := Some now;
     op_redoneBy := op_redoneBy op; op_redoneAt := op_redoneAt op |}.

Definition mark_redone (userId : string) (now : Z) (op : Operation) : Operation :=
  {| op_id := op_id op; op_type := op_type op; op_data := op_data op;
     op_userId := op_userId op; op_state := STATES_ACTIVE;
     op_vectorClock := op_vectorClock op; op_timestamp := op_timestamp op;
     op_roomId := op_roomId op;
     op_undoneBy := op_undoneBy op; op_undoneAt := op_undoneAt op;
     op_redoneBy := Some userId; op_redoneAt := Some now |}.

(** [undoOperation(operationId, userId)]. *)
Definition undoOperation (log : t) (operationId userId : string) (now : Z)
    : Result * t :=
  match List.find (has_id operationId) (operations log) with
  | None => (Failure "Operation not found", log)
  | Some operation =>
      if negb (bool_decide (op_state operation = STATES_ACTIVE)) then
        (Failure "Operation already undone", log)
      else
        (Success (mark_undone userId now operation),
         with_operations log
           (mutate_first (has_id operationId) (mark_undone userId now)
                         (operations log)))
  end.

(** [redoOperation(operationId, userId)]. *)
Definition redoOperation (log : t) (operationId userId : string) (now : Z)
    : Result * t :=
  match List.find (has_id operationId) (operations log) with
  | None => (Failure "Operation not found", log)
  | Some operation =>
      if negb (bool_decide (op_state operation = STATES_UNDONE)) then
        (Failure "Operation is not undone", log)
      else
        (Success (mark_redone userId now operation),
         with_operations log
           (mutate_first (has_id operationId) (mark_redone userId now)
                         (operations log)))
  end.

Definition is_active (op : Operation) : bool :=
  bool_decide (op_state op = STATES_ACTIVE).

Definition is_undone (op : Operation) : bool :=
  bool_decide (op_state op = STATES_UNDONE).

(** [getActiveOperations()]. *)
Definition getActiveOperations (log : t) : list Operation :=
  List.filter is_active (operations log).


Definition getUserOperations (log : t) (userId : string) : list Operation :=
  List.filter (fun op => bool_decide (op_userId op = userId)) (operations log).

(** [getLastActiveOperation()] and [getLastUndoneOperation()] scan from the end. *)
Definition getLastActiveOperation (log : t) : option Operation :=
  List.find is_active (rev (operations log)).

Definition getLastUndoneOperation (log : t) : option Operation :=
  List.find is_undone (rev (operations log)).

(** The body of the [forEach] of [clearOperations]. *)
Definition clear_flip (clearId userId : string) (now : Z) (op : Operation) : Operation :=
  if negb (bool_decide (op_id op = clearId)) && is_active op
  then mark_undone userId now op
  else op.

(** [clearOperations(userId)].  The argument [clearedCount] is evaluated
    before [addOperation] runs. *)
Definition clearOperations (log : t) (userId : string) (now : Z) (nonce : string)
    : Operation * t :=
  let data := ClearInfo (length (getActiveOperations log)) now in
  let '(clearOp, log1) := addOperation log userId TYPES_CLEAR data now nonce in
  (clearOp,
   with_operations log1
     (map (clear_flip (op_id clearOp) userId now) (operations log1))).

(** The result of [mergeOperations]. *)
Record MergeResult := mkMergeResult { merged : nat; total : nat }.

(** [mergeOperations(externalOperations)].  The [Set] [existing] is only
    asked for membership; it is kept as the list of the ids it was built
    from. *)
Definition mergeOperations (log : t) (externalOperations : list Operation)
    : MergeResult * t :=
  let existing := map op_id (operations log) in
  let newOps :=
    List.filter (fun op => negb (bool_decide (op_id op ∈ existing)))
                externalOperations in
  let clock :=
    foldl (fun clock op =>
             match op_vectorClock op with
             | Some remote => VectorClock.update clock (Some remote)
             | None => clock
             end)
          (vectorClock log) newOps in
  let pushed := operations log ++ newOps in
  let sorted := VectorClock.sortEvents pushed in
  let log' :=
    trimOperations
      {| roomId := roomId log; operations := sorted;
         vectorClock := clock; createdAt := createdAt log |} in
  ({| merged := length newOps; total := length (operations log') |}, log').

(** [getStats()]. *)
Record Stats := mkStats {
  st_total : nat;
  st_active : nat;
  st_undone : nat;
  st_strokes : nat;
  st_clears : nat;
  st_roomId : string;
  st_createdAt : Z;
  st_age : Z
}.

Definition getStats (log : t) (now : Z) : Stats :=
  {| st_total := length (operations log);
     st_active := length (getActiveOperations log);
     st_undone := length (List.filter is_undone (operations log));
     st_strokes :=
       length (List.filter (fun op => bool_decide (op_type op = TYPES_STROKE))
                           (operations log));
     st_clears :=
       length (List.filter (fun op => bool_decide (op_type op = TYPES_CLEAR))
                           (operations log));
     st_roomId := roomId log;
     st_createdAt := createdAt log;
     st_age := (now - createdAt log)%Z |}.



(** [rebuildState()]. *)
Definition rebuildState (log : t) : list Payload * nat :=
  let activeOps := getActiveOperations log in
  let strokes :=
    List.filter (fun op => bool_decide (op_type op = TYPES_STROKE)) activeOps in
  (map op_data strokes, length activeOps).






(** [reset()]. *)
Definition reset (log : t) : t :=
  {| roomId := roomId log; operations := []; vectorClock := ∅;
     createdAt := createdAt log |}.

(** A call of [addOperation]: its arguments and what it reads of the
    environment. *)
Record AddCall := mkAddCall {
  call_userId : string;
  call_type : string;
  call_data : Payload;
  call_now : Z;
  call_nonce : string
}.

Definition call_id (c : AddCall) : string :=
  generateOperationId (call_userId c) (call_now c) (call_nonce c).

Definition addCall (log : t) (c : AddCall) : t :=
  (addOperation log (call_userId c) (call_type c) (call_data c)
                (call_now c) (call_nonce c)).2.

(** A sequence of [addOperation] calls, in order. *)
Definition addCalls (log : t) (calls : list AddCall) : t :=
  foldl addCall log calls.

End OperationLog.

(** ** RoomManager *)

Module RoomManager.

(** [CONFIG.USER_COLORS] of [shared/constants.js]. *)
Definition USER_COLORS : list string :=
  ["#FF6B6B"; "#4ECDC4"; "#45B7D1"; "#FFA07A";
   "#98D8C8"; "#F7DC6F"; "#BB8FCE"; "#85C1E2";
   "#F8B739"; "#52B788"].

Definition maxUsersPerRoom : nat := 20.
Definition roomTimeout : Z := 3600000.

(** The user object built by [joinRoom]. *)
Record User := mkUser {
  u_id : string;
  u_socketId : string;
  u_name : string;
  u_color : string;
  u_roomId : string;
  u_joinedAt : Z;
  u_lastActivity : Z
}.

(** A user object is shared by [room.users] and [this.users], and
    [updateActivity] assigns to its [lastActivity]: both maps hold the
    address of the object in [heap], the list of all user objects ever
    allocated. *)
Abbreviation ref := nat.

Record Room := mkRoom {
  r_id : string;
  r_users : gmap string ref;
  r_operationLog : OperationLog.t;
  r_createdAt : Z;
  r_lastActivity : Z
}.

(** The manager: [this.rooms], [this.users], the user objects, and the
    pending [setTimeout] callbacks of [scheduleRoomCleanup] as pairs of
    the room id and the time the callback is due. *)
Record t := mkManager {
  rooms : gmap string Room;
  users : gmap string ref;
  heap : list User;
  timers : list (string * Z)
}.

(** [new RoomManager()]. *)
Definition new : t :=
  {| rooms := ∅; users := ∅; heap := []; timers := [] |}.

(** The values drawn from [Math.random()] during one [joinRoom]: the
    suffix of the user id, the three draws of [generateUsername] and the
    hue of [generateRandomColor]. *)
Record Random := mkRandom {
  rnd_nonce : string;
  rnd_adjective : nat;
  rnd_noun : nat;
  rnd_number : nat;
  rnd_hue : nat
}.

Definition with_rooms (st : t) (rs : gmap string Room) : t :=
  {| rooms := rs; users := users st; heap := heap st; timers := timers st |}.

(** [createRoom(roomId)]. *)
Definition createRoom (st : t) (roomId : string) (now : Z) : Room * t :=
  match rooms st !! roomId with
  | Some room => (room, st)
  | None =>
      let room :=
        {| r_id := roomId; r_users := ∅;
           r_operationLog := OperationLog.new roomId now;
           r_createdAt := now; r_lastActivity := now |} in
      (room, with_rooms st (<[roomId := room]> (rooms st)))
  end.

(** [getRoom(roomId)]: get or create. *)
Definition getRoom (st : t) (roomId : string) (now : Z) : Room * t :=
  match rooms st !! roomId with
  | None => createRoom st roomId now
  | Some room => (room, st)
  end.

(** [Array.from(room.users.values())].  The model lists the members by
    key; JavaScript lists them in insertion order. *)
Definition room_members (st : t) (room : Room) : list User :=
  omap (fun kv => heap st !! kv.2) (map_to_list (r_users room)).

(** [generateRandomColor()]. *)
Definition generateRandomColor (hue : nat) : string :=
  "hsl(" +:+ pretty (hue mod 360) +:+ ", 70%, 60%)".

(** [assignColor(room)]. *)
Definition assignColor (st : t) (room : Room) (hue : nat) : string :=
  let usedColors := map u_color (room_members st room) in
  match List.find (fun color => negb (bool_decide (color ∈ usedColors)))
                  USER_COLORS with
  | Some color => color
  | None => generateRandomColor hue
  end.

(** [generateUserId()]. *)
Definition generateUserId (now : Z) (nonce : string) : string :=
  "user_" +:+ pretty now +:+ "_" +:+ nonce.

Definition adjectives : list string :=
  ["Happy"; "Creative"; "Swift"; "Clever"; "Bold"; "Bright"].

Definition nouns : list string :=
  ["Artist"; "Painter"; "Drawer"; "Creator"; "Designer"; "Maker"].

(** [generateUsername()]. *)
Definition generateUsername (rnd : Random) : string :=
  nth (rnd_adjective rnd mod 6) adjectives "" +:+
  nth (rnd_noun rnd mod 6) nouns "" +:+
  pretty (rnd_number rnd mod 100).

(** [username || this.generateUsername()]: [null] and the empty string
    are both replaced. *)
Definition name_or_generated (username : option string) (rnd : Random) : string :=
  match username with
  | Some name => if bool_decide (name = "") then generateUsername rnd else name
  | None => generateUsername rnd
  end.

(** [getRoomInfo(room)]. *)
Record RoomInfo := mkRoomInfo {
  info_id : string;
  info_userCount : nat;
  info_users : list (string * string * string);
  info_stats : OperationLog.Stats
}.

Definition getRoomInfo (st : t) (room : Room) (now : Z) : RoomInfo :=
  {| info_id := r_id room;
     info_userCount := size (r_users room);
     info_users :=
       map (fun u => (u_id u, u_name u, u_color u)) (room_members st room);
     info_stats := OperationLog.getStats (r_operationLog room) now |}.

(** The result of [joinRoom]. *)
Inductive JoinResult :=
  | JoinSuccess (user : User) (room : RoomInfo)
  | JoinFailure (error : string).

(** [joinRoom(socketId, roomId, username)]. *)
Definition joinRoom (st : t) (socketId roomId : string)
    (username : option string) (now : Z) (rnd : Random) : JoinResult * t :=
  let '(room, st1) := getRoom st roomId now in
  if decide (maxUsersPerRoom ≤ size (r_users room)) then
    (JoinFailure "Room is full", st1)
  else
    let userId := generateUserId now (rnd_nonce rnd) in
    let user :=
      {| u_id := userId; u_socketId := socketId;
         u_name := name_or_generated username rnd;
         u_color := assignColor st1 room (rnd_hue rnd);
         u_roomId := roomId; u_joinedAt := now; u_lastActivity := now |} in
    let address := length (heap st1) in
    let room' :=
      {| r_id := r_id room;
         r_users := <[userId := address]> (r_users room);
         r_operationLog := r_operationLog room;
         r_createdAt := r_createdAt room;
         r_lastActivity := now |} in
    let st2 :=
      {| rooms := <[roomId := room']> (rooms st1);
         users := <[socketId := address]> (users st1);
         heap := heap st1 ++ [user];
         timers := timers st1 |} in
    (JoinSuccess user (getRoomInfo st2 room' now), st2).

(** [scheduleRoomCleanup(roomId)]: registers a callback due in 60 s. *)
Definition scheduleRoomCleanup (st : t) (roomId : string) (now : Z) : t :=
  {| rooms := rooms st; users := users st; heap := heap st;
     timers := timers st ++ [(roomId, (now + 60000)%Z)] |}.

(** [deleteRoom(roomId)]. *)
Definition deleteRoom (st : t) (roomId : string) : t :=
  match rooms st !! roomId with
  | None => st
  | Some _ => with_rooms st (delete roomId (rooms st))
  end.

(** The callback of [scheduleRoomCleanup], run at time [now]. *)
Definition roomCleanupCallback (st : t) (roomId : string) (now : Z) : t :=
  match rooms st !! roomId with
  | Some room =>
      if bool_decide (size (r_users room) = 0) then
        let age := (now - r_lastActivity room)%Z in
        if (age >? 60000)%Z then deleteRoom st roomId else st
      else st
  | None => st
  end.

(** The user object a socket id stands for: [this.users.get(socketId)]. *)
Definition getUser (st : t) (socketId : string) : option User :=
  users st !! socketId ≫= fun address => heap st !! address.

(** [leaveRoom(socketId)]: [null], or the user and the room's info. *)
Definition leaveRoom (st : t) (socketId : string) (now : Z)
    : option (User * RoomInfo) * t :=
  match getUser st socketId with
  | None => (None, st)
  | Some user =>
      match rooms st !! u_roomId user with
      | None => (None, st)
      | Some room =>
          let room' :=
            {| r_id := r_id room;
               r_users := delete (u_id user) (r_users room);
               r_operationLog := r_operationLog room;
               r_createdAt := r_createdAt room;
               r_lastActivity := r_lastActivity room |} in
          let st1 :=
            {| rooms := <[u_roomId user := room']> (rooms st);
               users := delete socketId (users st);
               heap := heap st;
               timers := timers st |} in
          let st2 :=
            if bool_decide (size (r_users room') = 0)
            then scheduleRoomCleanup st1 (r_id room') now
            else st1 in
          (Some (user, getRoomInfo st2 room' now), st2)
      end
  end.

Definition touch_user (now : Z) (u : User) : User :=
  {| u_id := u_id u; u_socketId := u_socketId u; u_name := u_name u;
     u_color := u_color u; u_roomId := u_roomId u;
     u_joinedAt := u_joinedAt u; u_lastActivity := now |}.

Definition touch_room (now : Z) (r : Room) : Room :=
  {| r_id := r_id r; r_users := r_users r;
     r_operationLog := r_operationLog r;
     r_createdAt := r_createdAt r; r_lastActivity := now |}.

(** [updateActivity(socketId)]. *)
Definition updateActivity (st : t) (socketId : string) (now : Z) : t :=
  match users st !! socketId with
  | None => st
  | Some address =>
      match heap st !! address with
      | None => st
      | Some user =>
          {| rooms := alter (touch_room now) (u_roomId user) (rooms st);
             users := users st;
             heap := <[address := touch_user now user]> (heap st);
             timers := timers st |}
      end
  end.

(** The test of the [forEach] in the interval callback of
    [startCleanupTimer]: is the room pushed onto [toDelete]? *)
Definition reaped (room : Room) (now : Z) : bool :=
  let inactiveTime := (now - r_lastActivity room)%Z in
  if bool_decide (size (r_users room) = 0) && (inactiveTime >? 300000)%Z then true
  else if (inactiveTime >? roomTimeout)%Z then true
  else false.

(** The interval callback of [startCleanupTimer], run at time [now]. *)
Definition cleanupTick (st : t) (now : Z) : t :=
  let toDelete :=
    map fst (List.filter (fun kv => reaped kv.2 now) (map_to_list (rooms st))) in
  foldl deleteRoom st toDelete.

(** *** Runs of the manager

    The operations the claims quantify over: a join, a leave, an activity
    update, a due callback of [scheduleRoomCleanup], and a tick of the
    periodic cleanup. *)
Inductive Op :=
  | OpJoin (socketId roomId : string) (username : option string)
           (now : Z) (rnd : Random)
  | OpLeave (socketId : string) (now : Z)
  | OpActivity (socketId : string) (now : Z)
  | OpTimer (index : nat) (now : Z)
  | OpTick (now : Z).

(** Running a due callback removes it from the pending ones; an index
    that names no pending callback, or one that is not yet due, does
    nothing. *)
Definition fireTimer (st : t) (index : nat) (now : Z) : t :=
  match timers st !! index with
  | Some (roomId, due) =>
      if (due <=? now)%Z then
        roomCleanupCallback
          {| rooms := rooms st; users := users st; heap := heap st;
             timers := delete index (timers st) |}
          roomId now
      else st
  | None => st
  end.

Definition run_op (st : t) (o : Op) : t :=
  match o with
  | OpJoin socketId roomId username now rnd =>
      (joinRoom st socketId roomId username now rnd).2
  | OpLeave socketId now => (leaveRoom st socketId now).2
  | OpActivity socketId now => updateActivity st socketId now
  | OpTimer index now => fireTimer st index now
  | OpTick now => cleanupTick st now
  end.

Definition run (st : t) (ops : list Op) : t := foldl run_op st ops.

(** The two maps agree: a member of a room is the session of its socket
    and records that room, and a session is a member of its room. *)
Definition members_are_sessions (st : t) : Prop :=
  ∀ roomId room userId address,
    rooms st !! roomId = Some room →
    r_users room !! userId = Some address →
    ∃ user, heap st !! address = Some user ∧
            u_id user = userId ∧ u_roomId user = roomId ∧
            users st !! u_socketId user = Some address.

Definition sessions_are_members (st : t) : Prop :=
  ∀ socketId address,
    users st !! socketId = Some address →
    ∃ user room, heap st !! address = Some user ∧
                 u_socketId user = socketId ∧
                 rooms st !! u_roomId user = Some room ∧
                 r_users room !! u_id user = Some address.

Definition maps_agree (st : t) : Prop :=
  members_are_sessions st ∧ sessions_are_members st.

(** No member of any room and no session refers to the socket. *)
Definition unreferenced (st : t) (socketId : string) : Prop :=
  users st !! socketId = None ∧
  ∀ roomId room userId address user,
    rooms st !! roomId = Some room →
    r_users room !! userId = Some address →
    heap st !! address = Some user →
    u_socketId user ≠ socketId.

(** The operations under which the agreement is kept: a join of a socket
    that has no session, with a user id not yet in the room; a tick at
    which no room that still has members is older than [roomTimeout]; and
    every leave, activity update and cleanup callback. *)
Definition guarded (st : t) (o : Op) : bool :=
  match o with
  | OpJoin socketId roomId username now rnd =>
      bool_decide (users st !! socketId = None) &&
      match rooms st !! roomId with
      | Some room =>
          bool_decide (r_users room !! generateUserId now (rnd_nonce rnd) = None)
      | None => true
      end
  | OpTick now =>
      forallb (fun kv => bool_decide (size (r_users kv.2) = 0) ||
                         (now - r_lastActivity kv.2 <=? roomTimeout)%Z)
              (map_to_list (rooms st))
  | _ => true
  end.

Fixpoint guarded_run (st : t) (ops : list Op) : bool :=
  match ops with
  | [] => true
  | o :: ops' => guarded st o && guarded_run (run_op st o) ops'
  end.

(** The number of members of a room, 0 for a room that does not exist
    yet. *)
Definition members (st : t) (roomId : string) : nat :=
  match rooms st !! roomId with
  | Some room => size (r_users room)
  | None => 0
  end.

(** [getRoomUsers(roomId)]. *)
Definition getRoomUsers (st : t) (roomId : string) : list User :=
  match rooms st !! roomId with
  | None => []
  | Some room => room_members st room
  end.

(** [broadcastToRoom(io, roomId, event, data, excludeSocketId)]: the
    sockets [io.to(user.socketId).emit(event, data)] is called for. *)
Definition broadcastToRoom (st : t) (roomId : string)
    (excludeSocketId : option string) : list string :=
  match rooms st !! roomId with
  | None => []
  | Some room =>
      map u_socketId
          (List.filter
             (fun user => negb (bool_decide (Some (u_socketId user) = excludeSocketId)))
             (room_members st room))
  end.

(** [broadcastToAll(io, roomId, event, data)]. *)
Definition broadcastToAll (st : t) (roomId : string) : list string :=
  match rooms st !! roomId with
  | None => []
  | Some room => map u_socketId (room_members st room)
  end.

End RoomManager.


(** ** Auxiliary notions used in the statements *)

(** What a clear does to an entry that was in the log before it: an
    ['active'] entry is undone by the caller, any other is left alone. *)
Definition flip_active (userId : string) (now : Z)
    (op : OperationLog.Operation) : OperationLog.Operation :=
  if bool_decide (OperationLog.op_state op = OperationLog.STATES_ACTIVE)
  then OperationLog.mark_undone userId now op
  else op.

(** ** Concrete runs *)

Module Scenario.

(** A room in which alice and bob each end a stroke. *)
Definition log0 : OperationLog.t := OperationLog.new "r1" 1700000000000.

Definition stroke_alice : OperationLog.AddCall :=
  OperationLog.mkAddCall "alice" "stroke" (OperationLog.Stroke "s1")
                         1700000000100 "k3j9x0a1b".

Definition stroke_bob : OperationLog.AddCall :=
  OperationLog.mkAddCall "bob" "stroke" (OperationLog.Stroke "s2")
                         1700000000200 "q7w2e5r8t".

Definition log2 : OperationLog.t :=
  OperationLog.addCalls log0 [stroke_alice; stroke_bob].

Definition id_alice : string := OperationLog.call_id stroke_alice.

Definition op_alice : OperationLog.Operation :=
  {| OperationLog.op_id := "alice_1700000000100_k3j9x0a1b";
     OperationLog.op_type := "stroke";
     OperationLog.op_data := OperationLog.Stroke "s1";
     OperationLog.op_userId := "alice";
     OperationLog.op_state := "active";
     OperationLog.op_vectorClock := Some {[ "alice" := 1%Z ]};
     OperationLog.op_timestamp := 1700000000100;
     OperationLog.op_roomId := "r1";
     OperationLog.op_undoneBy := None; OperationLog.op_undoneAt := None;
     OperationLog.op_redoneBy := None; OperationLog.op_redoneAt := None |}.

(** An operation received without a vector clock, stamped before alice's. *)
Definition op_unclocked : OperationLog.Operation :=
  OperationLog.mkOperation "dave_1700000000050_m4n5b6v7c" "stroke"
    (OperationLog.Stroke "s0") "dave" "active" None 1700000000050 "r1"
    None None None None.




(** alice alone ends [n] strokes, one per millisecond. *)
Definition strokes_alice (n : nat) : list OperationLog.AddCall :=
  map (fun k => OperationLog.mkAddCall "alice" "stroke" (OperationLog.Stroke "s")
                  (1700000000100 + Z.of_nat k) "k3j9x0a1b")
      (seq 0 n).

Definition log_full_alice : OperationLog.t :=
  OperationLog.addCalls log0 (strokes_alice OperationLog.maxOperations).

(** Operations offered to [mergeOperations]: a stroke of bob made
    elsewhere, and an operation without a clock that carries the id of the
    oldest entry of [log_full_alice]. *)
Definition op_bob_remote : OperationLog.Operation :=
  OperationLog.mkOperation "bob_1700000009000_q7w2e5r8t" "stroke"
    (OperationLog.Stroke "s2") "bob" "active" (Some {[ "bob" := 1%Z ]})
    1700000009000 "r1" None None None None.

Definition op_same_id : OperationLog.Operation :=
  OperationLog.mkOperation "alice_1700000000100_k3j9x0a1b" "stroke"
    (OperationLog.Stroke "s") "alice" "active" None
    1700000009500 "r1" None None None None.

Definition remote_ops : list OperationLog.Operation :=
  [op_bob_remote; op_same_id].

(** [n] sockets join room [r2], one per millisecond. *)
Definition joins (n : nat) : list RoomManager.Op :=
  map (fun k => RoomManager.OpJoin ("socket" +:+ pretty k) "r2" None
                  (1700000000000 + Z.of_nat k)
                  (RoomManager.mkRandom ("n" +:+ pretty k) k k k k))
      (seq 0 n).

(** A manager whose room [r2] is full. *)
Definition manager_full : RoomManager.t :=
  RoomManager.run RoomManager.new (joins RoomManager.maxUsersPerRoom).

Definition rnd_late : RoomManager.Random :=
  RoomManager.mkRandom "n20" 1 2 3 4.

Definition rnd_ann : RoomManager.Random :=
  RoomManager.mkRandom "a1b2c3d4e" 0 0 7 10.

Definition rnd_ben : RoomManager.Random :=
  RoomManager.mkRandom "f5g6h7i8j" 1 2 42 200.

(** ann and ben join room [r1], ann draws, ann leaves, and the periodic
    cleanup ticks. *)
Definition afternoon : list RoomManager.Op :=
  [RoomManager.OpJoin "socketA" "r1" (Some "ann") 1700000000000 rnd_ann;
   RoomManager.OpJoin "socketB" "r1" None 1700000001000 rnd_ben;
   RoomManager.OpActivity "socketA" 1700000002000;
   RoomManager.OpLeave "socketA" 1700000003000;
   RoomManager.OpTick 1700000300000].

(** ann joins room [r1] and stays connected without drawing; the periodic
    cleanup ticks 65 minutes later. *)
Definition idle_hour : list RoomManager.Op :=
  [RoomManager.OpJoin "socketA" "r1" (Some "ann") 1700000000000 rnd_ann;
   RoomManager.OpTick 1700003900000].

(** The same socket sends [join_room] twice. *)
Definition joined_twice : list RoomManager.Op :=
  [RoomManager.OpJoin "socketA" "r1" (Some "ann") 1700000000000 rnd_ann;
   RoomManager.OpJoin "socketA" "r1" (Some "ann") 1700000001000 rnd_ben].

End Scenario.

(** ** The socket handlers of [server.js] that write to the operation log *)

Module Server.

(** Where a message is sent: [socket.to(roomId)] (everyone in the room but
    the sender) or [io.to(roomId)] (everyone in the room). *)
Inductive Target :=
  | Others (roomId socketId : string)
  | Everyone (roomId : string).

(** The messages the four handlers emit, with their payload. *)
Inductive Message :=
  | RemoteDrawEnd (userId : string) (stroke : string) (operationId : string)
                  (timestamp : Z)
  | RemoteUndo (userId operationId : string) (timestamp : Z)
  | RemoteRedo (userId operationId : string) (timestamp : Z)
  | RemoteClear (userId : string) (timestamp : Z).

Record Emit := mkEmit { target : Target; message : Message }.

(** Assignments to the fields of [room.operationLog], the room being the
    object stored under [roomId]. *)
Definition set_log (st : RoomManager.t) (roomId : string)
    (room : RoomManager.Room) (log : OperationLog.t) : RoomManager.t :=
  RoomManager.with_rooms st
    (<[roomId := RoomManager.mkRoom (RoomManager.r_id room)
                   (RoomManager.r_users room) log
                   (RoomManager.r_createdAt room)
                   (RoomManager.r_lastActivity room)]> (RoomManager.rooms st)).

(** The test [if (operationId)]: [undefined] and the empty string are
    falsy. *)
Definition given (operationId : option string) : option string :=
  match operationId with
  | Some i => if bool_decide (i = "") then None else Some i
  | None => None
  end.

(** [socket.on(EVENTS.DRAW_END, ...)]; [sent] is [data.timestamp]. *)
Definition onDrawEnd (st : RoomManager.t) (socketId stroke : string)
    (sent now : Z) (nonce : string) : list Emit * RoomManager.t :=
  match RoomManager.getUser st socketId with
  | None => ([], st)
  | Some user =>
      let st1 := RoomManager.updateActivity st socketId now in
      let '(room, st2) :=
        RoomManager.getRoom st1 (RoomManager.u_roomId user) now in
      let '(operation, log) :=
        OperationLog.addOperation (RoomManager.r_operationLog room)
          (RoomManager.u_id user) "stroke" (OperationLog.Stroke stroke)
          now nonce in
      ([mkEmit (Others (RoomManager.u_roomId user) socketId)
               (RemoteDrawEnd (RoomManager.u_id user) stroke
                              (OperationLog.op_id operation) sent)],
       set_log st2 (RoomManager.u_roomId user) room log)
  end.

(** [socket.on(EVENTS.UNDO, ...)]; [operationId] is [data.operationId]. *)
Definition onUndo (st : RoomManager.t) (socketId : string)
    (operationId : option string) (now : Z) : list Emit * RoomManager.t :=
  match RoomManager.getUser st socketId with
  | None => ([], st)
  | Some user =>
      let st1 := RoomManager.updateActivity st socketId now in
      let '(room, st2) :=
        RoomManager.getRoom st1 (RoomManager.u_roomId user) now in
      let log := RoomManager.r_operationLog room in
      let operationId :=
        match given operationId with
        | Some i => Some i
        | None =>
            match OperationLog.getLastActiveOperation log with
            | Some lastOp => given (Some (OperationLog.op_id lastOp))
            | None => None
            end
        end in
      match operationId with
      | None => ([], st2)
      | Some i =>
          let '(result, log') :=
            OperationLog.undoOperation log i (RoomManager.u_id user) now in
          (match result with
           | OperationLog.Success _ =>
               [mkEmit (Everyone (RoomManager.u_roomId user))
                       (RemoteUndo (RoomManager.u_id user) i now)]
           | OperationLog.Failure _ => []
           end,
           set_log st2 (RoomManager.u_roomId user) room log')
      end
  end.

(** [socket.on(EVENTS.REDO, ...)]. *)
Definition onRedo (st : RoomManager.t) (socketId : string)
    (operationId : option string) (now : Z) : list Emit * RoomManager.t :=
  match RoomManager.getUser st socketId with
  | None => ([], st)
  | Some user =>
      let st1 := RoomManager.updateActivity st socketId now in
      let '(room, st2) :=
        RoomManager.getRoom st1 (RoomManager.u_roomId user) now in
      let log := RoomManager.r_operationLog room in
      let operationId :=
        match given operationId with
        | Some i => Some i
        | None =>
            match OperationLog.getLastUndoneOperation log with
            | Some lastOp => given (Some (OperationLog.op_id lastOp))
            | None => None
            end
        end in
      match operationId with
      | None => ([], st2)
      | Some i =>
          let '(result, log') :=
            OperationLog.redoOperation log i (RoomManager.u_id user) now in
          (match result with
           | OperationLog.Success _ =>
               [mkEmit (Everyone (RoomManager.u_roomId user))
                       (RemoteRedo (RoomManager.u_id user) i now)]
           | OperationLog.Failure _ => []
           end,
           set_log st2 (RoomManager.u_roomId user) room log')
      end
  end.

(** [socket.on(EVENTS.CLEAR_CANVAS, ...)]. *)
Definition onClearCanvas (st : RoomManager.t) (socketId : string)
    (now : Z) (nonce : string) : list Emit * RoomManager.t :=
  match RoomManager.getUser st socketId with
  | None => ([], st)
  | Some user =>
      let st1 := RoomManager.updateActivity st socketId now in
      let '(room, st2) :=
        RoomManager.getRoom st1 (RoomManager.u_roomId user) now in
      let '(_, log) :=
        OperationLog.clearOperations (RoomManager.r_operationLog room)
          (RoomManager.u_id user) now nonce in
      ([mkEmit (Everyone (RoomManager.u_roomId user))
               (RemoteClear (RoomManager.u_id user) now)],
       set_log st2 (RoomManager.u_roomId user) room log)
  end.

(** The log of a room, if the room exists. *)
Definition room_log (st : RoomManager.t) (roomId : string)
    : option OperationLog.t :=
  RoomManager.r_operationLog <$> RoomManager.rooms st !! roomId.

(** The log a handler works on: the log of the user's room, or a new log
    when [getRoom] has to create the room. *)
Definition entered_log (st : RoomManager.t) (user : RoomManager.User)
    (now : Z) : OperationLog.t :=
  default (OperationLog.new (RoomManager.u_roomId user) now)
          (room_log st (RoomManager.u_roomId user)).

End Server.

(** ** Runs of one operation log *)

Module LogRun.

(** The calls the server makes on a room's log. *)
Inductive Call :=
  | Add (userId type : string) (data : OperationLog.Payload)
        (now : Z) (nonce : string)
  | Undo (operationId userId : string) (now : Z)
  | Redo (operationId userId : string) (now : Z)
  | Clear (userId : string) (now : Z) (nonce : string).

Definition step (log : OperationLog.t) (c : Call) : OperationLog.t :=
  match c with
  | Add userId type data now nonce =>
      (OperationLog.addOperation log userId type data now nonce).2
  | Undo operationId userId now =>
      (OperationLog.undoOperation log operationId userId now).2
  | Redo operationId userId now =>
      (OperationLog.redoOperation log operationId userId now).2
  | Clear userId now nonce =>
      (OperationLog.clearOperations log userId now nonce).2
  end.

Definition run (log : OperationLog.t) (calls : list Call) : OperationLog.t :=
  foldl step log calls.

(** Every component of [a] is at most that of [b]. *)
Definition dominated (a b : VectorClock.Clock) : Prop :=
  ∀ u, (VectorClock.read a u ≤ VectorClock.read b u)%Z.

(** The state of an entry is one of the two the log knows. *)
Definition two_states (op : OperationLog.Operation) : Prop :=
  OperationLog.op_state op = OperationLog.STATES_ACTIVE ∨
  OperationLog.op_state op = OperationLog.STATES_UNDONE.

(** The entry carries a clock, and that clock is below [c]. *)
Definition stamped_below (c : VectorClock.Clock)
    (op : OperationLog.Operation) : Prop :=
  ∃ d, OperationLog.op_vectorClock op = Some d ∧ dominated d c.

(** What a run keeps: the cap, the two states, and every entry's clock
    below the clock of the log. *)
Definition well_formed (log : OperationLog.t) : Prop :=
  length (OperationLog.operations log) ≤ OperationLog.maxOperations ∧
  Forall two_states (OperationLog.operations log) ∧
  Forall (stamped_below (OperationLog.vectorClock log))
         (OperationLog.operations log).

End LogRun.

(** ** More concrete runs *)

Module Cases.

(** The second entry of [Scenario.log2]: bob's stroke. *)
Definition op_bob : OperationLog.Operation :=
  {| OperationLog.op_id := "bob_1700000000200_q7w2e5r8t";
     OperationLog.op_type := "stroke";
     OperationLog.op_data := OperationLog.Stroke "s2";
     OperationLog.op_userId := "bob";
     OperationLog.op_state := "active";
     OperationLog.op_vectorClock := Some {[ "alice" := 1%Z; "bob" := 1%Z ]};
     OperationLog.op_timestamp := 1700000000200;
     OperationLog.op_roomId := "r1";
     OperationLog.op_undoneBy := None; OperationLog.op_undoneAt := None;
     OperationLog.op_redoneBy := None; OperationLog.op_redoneAt := None |}.

(** The log of alice's and bob's strokes after carol has undone bob's. *)
Definition log2_undone : OperationLog.t :=
  (OperationLog.undoOperation Scenario.log2 "bob_1700000000200_q7w2e5r8t"
                              "carol" 1700000000300).2.

Definition op_bob_undone : OperationLog.Operation :=
  OperationLog.mark_undone "carol" 1700000000300 op_bob.

End Cases.

(** No room has more than [maxUsersPerRoom] members. *)
Definition within_capacity (st : RoomManager.t) : Prop :=
  ∀ roomId room, RoomManager.rooms st !! roomId = Some room →
                 size (RoomManager.r_users room) ≤ RoomManager.maxUsersPerRoom.

(** [room.users.has(userId)] for the room [roomId] of the manager. *)
Definition is_member (st : RoomManager.t) (roomId userId : string) : Prop :=
  ∃ room, RoomManager.rooms st !! roomId = Some room ∧
          is_Some (RoomManager.r_users room !! userId).

(** ** More runs of the manager *)

Module Revival.

(** ann joins room [r1] and leaves, which schedules the cleanup of the
    empty room; ben joins it before the callback is due. *)
Definition revived : RoomManager.t :=
  RoomManager.run RoomManager.new
    [RoomManager.OpJoin "socketA" "r1" (Some "ann") 1700000000000 Scenario.rnd_ann;
     RoomManager.OpLeave "socketA" 1700000010000;
     RoomManager.OpJoin "socketB" "r1" None 1700000020000 Scenario.rnd_ben].

(** ann has joined room [r1]. *)
Definition joined_once : RoomManager.t :=
  RoomManager.run RoomManager.new (take 1 Scenario.joined_twice).

(** The manager after [Scenario.afternoon]: ben alone in room [r1]. *)
Definition evening : RoomManager.t :=
  RoomManager.run RoomManager.new Scenario.afternoon.

(** ben ends a stroke, then ends another one. *)
Definition evening_drawn : RoomManager.t :=
  (Server.onDrawEnd
     (Server.onDrawEnd evening "socketB" "s1" 1700000500000 1700000500010
        "k3j9x0a1b").2
     "socketB" "s2" 1700000600000 1700000600010 "q7w2e5r8t").2.

(** ben undoes his second stroke, then his first one by its id. *)
Definition evening_undone : RoomManager.t :=
  (Server.onUndo
     (Server.onUndo evening_drawn "socketB" None 1700000700000).2
     "socketB" (Some "user_1700000001000_f5g6h7i8j_1700000500010_k3j9x0a1b")
     1700000710000).2.

(** The manager after [Scenario.idle_hour]: ann has a session, her room
    is gone. *)
Definition stranded : RoomManager.t :=
  RoomManager.run RoomManager.new Scenario.idle_hour.

End Revival.
(** * Properties *)

(** ** VectorClock.compare *)

Section CompareFacts.
Import VectorClock.
Implicit Types a b c : Clock.

Lemma compare_step_foldl a b (us : list string) (flags : bool * bool) :
  foldl (compare_step a b) flags us =
  (flags.1 || existsb (fun u => (read a u <? read b u)%Z) us,
   flags.2 || existsb (fun u => (read a u >? read b u)%Z) us).
Proof.
  revert flags. induction us as [|u us IH]; intros [l g]; simpl.
  - by rewrite !orb_false_r.
  - rewrite IH. unfold compare_step. simpl.
    destruct (read a u <? read b u)%Z, (read a u >? read b u)%Z, l, g; reflexivity.
Qed.

Lemma read_outside a u : u ∉ dom a → read a u = 0%Z.
Proof. intros Hu. unfold read. by rewrite (not_elem_of_dom_1 a u Hu). Qed.

(** A component in which the clocks differ is a key of one of them. *)
Lemma differ_in_allUsers a b u :
  read a u ≠ read b u → u ∈ allUsers a b.
Proof.
  intros Hne. unfold allUsers. apply elem_of_elements.
  destruct (decide (u ∈ dom a)) as [|Ha]; [set_solver|].
  destruct (decide (u ∈ dom b)) as [|Hb]; [set_solver|].
  rewrite (read_outside a u Ha), (read_outside b u Hb) in Hne. done.
Qed.

Lemma hasLess_spec a b :
  (compare_flags a b).1 = true ↔ ∃ u, (read a u < read b u)%Z.
Proof.
  unfold compare_flags. rewrite compare_step_foldl. simpl.
  rewrite existsb_exists. split.
  - intros (u & _ & Hu). exists u. lia.
  - intros (u & Hu). exists u. split; [|lia].
    apply list_elem_of_In, differ_in_allUsers. lia.
Qed.

Lemma hasGreater_spec a b :
  (compare_flags a b).2 = true ↔ ∃ u, (read b u < read a u)%Z.
Proof.
  unfold compare_flags. rewrite compare_step_foldl. simpl.
  rewrite existsb_exists. split.
  - intros (u & _ & Hu). exists u. lia.
  - intros (u & Hu). exists u. split; [|lia].
    apply list_elem_of_In, differ_in_allUsers. lia.
Qed.

Lemma hasGreater_swap a b :
  (compare_flags a b).2 = (compare_flags b a).1.
Proof.
  apply eq_true_iff_eq. by rewrite hasGreater_spec, hasLess_spec.
Qed.

Lemma compare_unfold a b :
  compare (Some a) (Some b) =
  if (compare_flags a b).1 && negb (compare_flags a b).2 then (-1)%Z
  else if (compare_flags a b).2 && negb (compare_flags a b).1 then 1%Z
  else 0%Z.
Proof. unfold compare. by destruct (compare_flags a b). Qed.

Lemma compare_range a b :
  compare (Some a) (Some b) = (-1)%Z ∨ compare (Some a) (Some b) = 0%Z ∨
  compare (Some a) (Some b) = 1%Z.
Proof.
  rewrite compare_unfold.
  destruct (compare_flags a b).1, (compare_flags a b).2; simpl; auto.
Qed.

Lemma compare_antisym a b :
  compare (Some a) (Some b) = (- compare (Some b) (Some a))%Z.
Proof.
  rewrite !compare_unfold.
  rewrite (hasGreater_swap a b), (hasGreater_swap b a).
  destruct (compare_flags a b).1, (compare_flags b a).1; reflexivity.
Qed.

Lemma compare_before_iff a b :
  compare (Some a) (Some b) = (-1)%Z ↔
  (∀ u, (read a u ≤ read b u)%Z) ∧ (∃ u, (read a u < read b u)%Z).
Proof.
  rewrite compare_unfold.
  destruct (compare_flags a b).1 eqn:Hl, (compare_flags a b).2 eqn:Hg; simpl.
  - apply hasGreater_spec in Hg as (u & Hu). split; [done|].
    intros [Hle _]. specialize (Hle u). lia.
  - apply hasLess_spec in Hl. split; [|done]. intros _. split; [|done].
    intros u. destruct (Z_le_gt_dec (read a u) (read b u)) as [|Hgt]; [done|].
    assert ((compare_flags a b).2 = true) as Habs; [|congruence].
    apply hasGreater_spec. exists u. lia.
  - split; [done|]. intros [_ Hex]. apply hasLess_spec in Hex. congruence.
  - split; [done|]. intros [_ Hex]. apply hasLess_spec in Hex. congruence.
Qed.

Lemma compare_refl a : compare (Some a) (Some a) = 0%Z.
Proof.
  pose proof (compare_antisym a a). lia.
Qed.

Lemma compare_before_trans a b c :
  compare (Some a) (Some b) = (-1)%Z →
  compare (Some b) (Some c) = (-1)%Z →
  compare (Some a) (Some c) = (-1)%Z.
Proof.
  rewrite !compare_before_iff. intros [Hab [u Hu]] [Hbc _]. split.
  - intros v. specialize (Hab v). specialize (Hbc v). lia.
  - exists u. specialize (Hbc u). lia.
Qed.

(** [update] takes, for every key of the remote clock, the larger of the
    two readings, and keeps the other components. *)
Lemma update_read a b u :
  read (update a (Some b)) u =
  match b !! u with
  | Some t => Z.max (read a u) t
  | None => read a u
  end.
Proof.
  unfold update. revert u.
  apply (map_fold_weak_ind
           (fun acc (m : Clock) =>
              ∀ u, read acc u = match m !! u with
                                | Some t => Z.max (read a u) t
                                | None => read a u
                                end)).
  - intros u. by rewrite lookup_empty.
  - intros i x m acc Hi IH u. destruct (decide (i = u)) as [<-|Hne].
    + rewrite lookup_insert_eq. unfold read at 1. rewrite lookup_insert_eq. simpl.
      rewrite IH, Hi. done.
    + rewrite lookup_insert_ne by done. unfold read at 1.
      rewrite lookup_insert_ne by done. apply IH.
Qed.

Lemma increment_read a u v :
  read (increment a u) v = if decide (u = v) then (read a u + 1)%Z else read a v.
Proof.
  unfold increment, read at 1. case_decide as Huv.
  - subst. by rewrite lookup_insert_eq.
  - by rewrite lookup_insert_ne.
Qed.

Example compare_before :
  compare (Some {[ "A" := 1%Z ]}) (Some {[ "A" := 2%Z; "B" := 1%Z ]}) = (-1)%Z.
Proof. reflexivity. Qed.

Example compare_concurrent :
  compare (Some {[ "A" := 2%Z ]}) (Some {[ "B" := 1%Z ]}) = 0%Z.
Proof. reflexivity. Qed.

End CompareFacts.

(** C5. For all vector clocks A, B, C (finite maps from user id to counter,
    a missing key reading 0): [compare(A, B)] is one of -1, 0, +1;
    [compare(A, A) = 0]; [compare(A, B) = -compare(B, A)];
    [compare(A, B) = -1] exactly when every component of A is at most the
    corresponding component of B and at least one is strictly less; and if
    [compare(A, B) = -1] and [compare(B, C) = -1] then
    [compare(A, C)] is not +1. *)
Theorem compare_laws (A B C : VectorClock.Clock) :
  (VectorClock.compare (Some A) (Some B) = (-1)%Z ∨
   VectorClock.compare (Some A) (Some B) = 0%Z ∨
   VectorClock.compare (Some A) (Some B) = 1%Z) ∧
  VectorClock.compare (Some A) (Some A) = 0%Z ∧
  VectorClock.compare (Some A) (Some B) =
    (- VectorClock.compare (Some B) (Some A))%Z ∧
  (VectorClock.compare (Some A) (Some B) = (-1)%Z ↔
   (∀ u, (VectorClock.read A u ≤ VectorClock.read B u)%Z) ∧
   (∃ u, (VectorClock.read A u < VectorClock.read B u)%Z)) ∧
  (VectorClock.compare (Some A) (Some B) = (-1)%Z →
   VectorClock.compare (Some B) (Some C) = (-1)%Z →
   VectorClock.compare (Some A) (Some C) ≠ 1%Z).
Proof.
  split; [apply compare_range|].
  split; [apply compare_refl|].
  split; [apply compare_antisym|].
  split; [apply compare_before_iff|].
  intros Hab Hbc. rewrite (compare_before_trans A B C Hab Hbc). lia.
Qed.

(** ** OperationLog: undo and redo *)

Section UndoRedo.
Import OperationLog.

Lemma find_split (P : Operation → bool) (ops : list Operation) (op : Operation) :
  List.find P ops = Some op →
  ∃ pre post, ops = pre ++ op :: post ∧ P op = true ∧
              Forall (fun o => P o = false) pre.
Proof.
  induction ops as [|o ops IH]; simpl; [done|].
  destruct (P o) eqn:HP.
  - intros [= ->]. exists [], ops. by repeat split.
  - intros Hf. destruct (IH Hf) as (pre & post & -> & Hop & Hpre).
    exists (o :: pre), post. repeat split; [done|]. by constructor.
Qed.

Lemma find_first (P : Operation → bool) (pre post : list Operation) (op : Operation) :
  Forall (fun o => P o = false) pre → P op = true →
  List.find P (pre ++ op :: post) = Some op.
Proof.
  induction 1 as [|o pre Ho _ IH]; simpl; intros HP.
  - by rewrite HP.
  - rewrite Ho. by apply IH.
Qed.

Lemma mutate_first_split (P : Operation → bool) (f : Operation → Operation)
    (pre post : list Operation) (op : Operation) :
  Forall (fun o => P o = false) pre → P op = true →
  mutate_first P f (pre ++ op :: post) = pre ++ f op :: post.
Proof.
  induction 1 as [|o pre Ho _ IH]; simpl; intros HP.
  - by rewrite HP.
  - rewrite Ho. by rewrite IH.
Qed.

(** With pairwise distinct ids, the entry [find] returns is the only one
    that carries the id. *)
Lemma getOperation_unique (log : t) (i : string) (op : Operation) :
  NoDup (map op_id (operations log)) →
  (getOperation log i = Some op ↔ op ∈ operations log ∧ op_id op = i).
Proof.
  unfold getOperation. intros Hnd. split.
  - intros Hf. destruct (find_split _ _ _ Hf) as (pre & post & Heq & HP & _).
    rewrite Heq. split; [set_solver|].
    unfold has_id in HP. by apply bool_decide_eq_true in HP.
  - intros [Hin <-]. revert Hnd Hin.
    induction (operations log) as [|o ops IH]; simpl; [by intros _ ?%elem_of_nil|].
    intros [Hnotin Hnd]%NoDup_cons [->|Hin]%elem_of_cons.
    + unfold has_id. by rewrite bool_decide_eq_true_2.
    + unfold has_id at 1. rewrite bool_decide_eq_false_2; [by apply IH|].
      intros Heq. apply Hnotin. rewrite Heq. by apply list_elem_of_fmap_2.
Qed.

Lemma undoOperation_active (log : t) (i u : string) (n : Z) (op : Operation) :
  getOperation log i = Some op → op_state op = STATES_ACTIVE →
  ∃ pre post,
    operations log = pre ++ op :: post ∧
    Forall (fun o => op_id o ≠ i) pre ∧
    undoOperation log i u n =
      (Success (mark_undone u n op),
       with_operations log (pre ++ mark_undone u n op :: post)) ∧
    getOperation (with_operations log (pre ++ mark_undone u n op :: post)) i =
      Some (mark_undone u n op).
Proof.
  unfold getOperation, undoOperation. intros Hf Hs.
  destruct (find_split _ _ _ Hf) as (pre & post & Heq & HP & Hpre).
  exists pre, post. rewrite Hf. split; [done|]. split.
  { eapply Forall_impl; [exact Hpre|]. intros o Ho. unfold has_id in Ho.
    by apply bool_decide_eq_false in Ho. }
  rewrite bool_decide_eq_true_2 by done. simpl.
  rewrite Heq, mutate_first_split by done. split; [done|].
  simpl. by apply find_first.
Qed.

Lemma undoOperation_inactive (log : t) (i u : string) (n : Z) (op : Operation) :
  getOperation log i = Some op → op_state op ≠ STATES_ACTIVE →
  undoOperation log i u n = (Failure "Operation already undone", log).
Proof.
  unfold getOperation, undoOperation. intros -> Hs.
  by rewrite bool_decide_eq_false_2.
Qed.

Lemma undoOperation_missing (log : t) (i u : string) (n : Z) :
  getOperation log i = None →
  undoOperation log i u n = (Failure "Operation not found", log).
Proof. unfold getOperation, undoOperation. by intros ->. Qed.

End UndoRedo.

(** C1. [undoOperation(id, user)] succeeds if and only if the log holds an
    operation with that id (the one [find] returns) and its state is
    ['active'].  On success that entry, and no other, changes: its state
    becomes ['undone'] and [undoneBy]/[undoneAt] record the caller and the
    time; a second [undoOperation] right after fails with
    ['Operation already undone'] and leaves the log as it is, the state
    still ['undone'].  On failure the result is ['Operation not found'] or
    ['Operation already undone'] and the log is unchanged. *)
Theorem undoOperation_spec (log : OperationLog.t) (operationId userId : string)
    (now : Z) :
  let result := OperationLog.undoOperation log operationId userId now in
  ((∃ op, result.1 = OperationLog.Success op) ↔
   (∃ op, OperationLog.getOperation log operationId = Some op ∧
          OperationLog.op_state op = "active")) ∧
  (∀ op, result.1 = OperationLog.Success op →
     ∃ before pre post,
       OperationLog.operations log = pre ++ before :: post ∧
       Forall (fun o => OperationLog.op_id o ≠ operationId) pre ∧
       OperationLog.op_id before = operationId ∧
       op = OperationLog.mark_undone userId now before ∧
       OperationLog.op_state op = "undone" ∧
       OperationLog.op_undoneBy op = Some userId ∧
       OperationLog.op_undoneAt op = Some now ∧
       OperationLog.operations result.2 = pre ++ op :: post ∧
       OperationLog.roomId result.2 = OperationLog.roomId log ∧
       OperationLog.vectorClock result.2 = OperationLog.vectorClock log ∧
       OperationLog.createdAt result.2 = OperationLog.createdAt log ∧
       ∀ userId' now',
         OperationLog.undoOperation result.2 operationId userId' now' =
           (OperationLog.Failure "Operation already undone", result.2) ∧
         OperationLog.getOperation result.2 operationId = Some op) ∧
  ((∀ op, result.1 ≠ OperationLog.Success op) →
   result.2 = log ∧
   (result.1 = OperationLog.Failure "Operation not found" ∨
    result.1 = OperationLog.Failure "Operation already undone")).
Proof.
  simpl.
  destruct (OperationLog.getOperation log operationId) as [op0|] eqn:Hget.
  - destruct (decide (OperationLog.op_state op0 = OperationLog.STATES_ACTIVE))
      as [Hact|Hact].
    + destruct (undoOperation_active log operationId userId now op0 Hget Hact)
        as (pre & post & Hops & Hpre & Hundo & Hget').
      rewrite Hundo. simpl. split; [|split].
      * split; [intros _; by exists op0 | intros _; by eexists].
      * intros op [= <-]. exists op0, pre, post.
        repeat (split; [done|]). split.
        { unfold OperationLog.getOperation in Hget.
          apply List.find_some in Hget as [_ Hid].
          unfold OperationLog.has_id in Hid.
          by apply bool_decide_eq_true in Hid. }
        repeat (split; [done|]).
        intros u' n'. split; [|done].
        by apply (undoOperation_inactive _ _ _ _ _ Hget').
      * intros Hno. by destruct (Hno _ eq_refl).
    + rewrite (undoOperation_inactive _ _ _ _ _ Hget Hact). simpl.
      split; [|split].
      * split; [by intros [? ?]|]. intros (op & [= <-] & Hs). by destruct Hact.
      * by intros op.
      * intros _. auto.
  - rewrite (undoOperation_missing _ _ _ _ Hget). simpl. split; [|split].
    + split; [by intros [? ?] | by intros (? & ? & _)].
    + by intros op.
    + intros _. auto.
Qed.

Section UndoRedoAt.
Import OperationLog.

Lemma find_at (i : string) (pre post : list Operation) (op : Operation) :
  Forall (fun o => op_id o ≠ i) pre → op_id op = i →
  List.find (has_id i) (pre ++ op :: post) = Some op ∧
  ∀ f, mutate_first (has_id i) f (pre ++ op :: post) = pre ++ f op :: post.
Proof.
  intros Hpre Hop.
  assert (Forall (fun o => has_id i o = false) pre) as Hpre'.
  { eapply Forall_impl; [exact Hpre|]. intros o Ho.
    unfold has_id. by apply bool_decide_eq_false. }
  assert (has_id i op = true) as Hop'.
  { unfold has_id. by apply bool_decide_eq_true. }
  split; [by apply find_first|]. intros f. by apply mutate_first_split.
Qed.

Lemma getOperation_at (log : t) (i : string) (op : Operation) :
  getOperation log i = Some op →
  ∃ pre post, operations log = pre ++ op :: post ∧
              Forall (fun o => op_id o ≠ i) pre ∧ op_id op = i.
Proof.
  unfold getOperation. intros Hf.
  destruct (find_split _ _ _ Hf) as (pre & post & Heq & HP & Hpre).
  exists pre, post. split; [done|]. split.
  - eapply Forall_impl; [exact Hpre|]. intros o Ho. unfold has_id in Ho.
    by apply bool_decide_eq_false in Ho.
  - unfold has_id in HP. by apply bool_decide_eq_true in HP.
Qed.

Lemma undoOperation_at (log : t) (i u : string) (n : Z)
    (pre post : list Operation) (op : Operation) :
  operations log = pre ++ op :: post →
  Forall (fun o => op_id o ≠ i) pre → op_id op = i →
  op_state op = STATES_ACTIVE →
  undoOperation log i u n =
    (Success (mark_undone u n op),
     with_operations log (pre ++ mark_undone u n op :: post)).
Proof.
  intros Hops Hpre Hid Hs. unfold undoOperation. rewrite Hops.
  destruct (find_at i pre post op Hpre Hid) as [-> ->].
  by rewrite bool_decide_eq_true_2.
Qed.

Lemma redoOperation_at (log : t) (i u : string) (n : Z)
    (pre post : list Operation) (op : Operation) :
  operations log = pre ++ op :: post →
  Forall (fun o => op_id o ≠ i) pre → op_id op = i →
  op_state op = STATES_UNDONE →
  redoOperation log i u n =
    (Success (mark_redone u n op),
     with_operations log (pre ++ mark_redone u n op :: post)).
Proof.
  intros Hops Hpre Hid Hs. unfold redoOperation. rewrite Hops.
  destruct (find_at i pre post op Hpre Hid) as [-> ->].
  by rewrite bool_decide_eq_true_2.
Qed.

Lemma redoOperation_at_active (log : t) (i u : string) (n : Z)
    (pre post : list Operation) (op : Operation) :
  operations log = pre ++ op :: post →
  Forall (fun o => op_id o ≠ i) pre → op_id op = i →
  op_state op = STATES_ACTIVE →
  redoOperation log i u n = (Failure "Operation is not undone", log).
Proof.
  intros Hops Hpre Hid Hs. unfold redoOperation. rewrite Hops.
  destruct (find_at i pre post op Hpre Hid) as [-> _].
  rewrite bool_decide_eq_false_2; [done|]. by rewrite Hs.
Qed.

End UndoRedoAt.

(** C7. For an operation that is ['active'], [undoOperation] succeeds,
    a following [redoOperation] succeeds and leaves the operation
    ['active'] again with [redoneBy]/[redoneAt] recorded, and one more
    [redoOperation] fails and changes nothing.  After the undo and the
    redo every entry of the log has the state it had before. *)
Theorem undo_redo_round_trip (log : OperationLog.t) (operationId : string)
    (op : OperationLog.Operation) (u1 u2 u3 : string) (n1 n2 n3 : Z) :
  OperationLog.getOperation log operationId = Some op →
  OperationLog.op_state op = "active" →
  let undone := OperationLog.undoOperation log operationId u1 n1 in
  let redone := OperationLog.redoOperation undone.2 operationId u2 n2 in
  let again := OperationLog.redoOperation redone.2 operationId u3 n3 in
  (∃ op1, undone.1 = OperationLog.Success op1 ∧
          OperationLog.op_state op1 = "undone") ∧
  (∃ op2, redone.1 = OperationLog.Success op2 ∧
          OperationLog.op_state op2 = "active" ∧
          OperationLog.op_redoneBy op2 = Some u2 ∧
          OperationLog.op_redoneAt op2 = Some n2 ∧
          OperationLog.getOperation redone.2 operationId = Some op2) ∧
  again = (OperationLog.Failure "Operation is not undone", redone.2) ∧
  map OperationLog.op_state (OperationLog.operations redone.2) =
    map OperationLog.op_state (OperationLog.operations log).
Proof.
  intros Hget Hact. simpl.
  destruct (getOperation_at log operationId op Hget)
    as (pre & post & Hops & Hpre & Hid).
  rewrite (undoOperation_at log operationId u1 n1 pre post op Hops Hpre Hid Hact).
  simpl.
  set (op1 := OperationLog.mark_undone u1 n1 op).
  set (log1 := OperationLog.with_operations log (pre ++ op1 :: post)).
  rewrite (redoOperation_at log1 operationId u2 n2 pre post op1
             eq_refl Hpre Hid eq_refl).
  simpl.
  set (op2 := OperationLog.mark_redone u2 n2 op1).
  set (log2 := OperationLog.with_operations log1 (pre ++ op2 :: post)).
  rewrite (redoOperation_at_active log2 operationId u3 n3 pre post op2
             eq_refl Hpre Hid eq_refl).
  split; [by exists op1|]. split.
  - exists op2. repeat (split; [done|]).
    unfold OperationLog.getOperation. simpl.
    by destruct (find_at operationId pre post op2 Hpre Hid) as [-> _].
  - split; [done|]. simpl. rewrite Hops, !map_app. simpl. by rewrite Hact.
Qed.

(** ** OperationLog: append, trim and clear *)

Section AppendTrim.
Import OperationLog.

Lemma maxOperations_pos : 0 < maxOperations.
Proof. unfold maxOperations. lia. Qed.

Lemma trimOperations_operations (log : t) :
  operations (trimOperations log) =
  drop (length (operations log) - maxOperations) (operations log).
Proof.
  unfold trimOperations. destruct (decide _) as [Hgt|Hle]; simpl; [done|].
  replace (length (operations log) - maxOperations) with 0 by lia. done.
Qed.

Lemma trimOperations_length (log : t) :
  length (operations (trimOperations log)) ≤ maxOperations.
Proof. rewrite trimOperations_operations, length_drop. lia. Qed.

Lemma trimOperations_fields (log : t) :
  roomId (trimOperations log) = roomId log ∧
  vectorClock (trimOperations log) = vectorClock log ∧
  createdAt (trimOperations log) = createdAt log.
Proof. unfold trimOperations. by destruct (decide _). Qed.

Lemma trimOperations_id (log : t) :
  length (operations log) ≤ maxOperations → trimOperations log = log.
Proof.
  unfold trimOperations. intros Hle. destruct (decide _); [lia|done].
Qed.

(** After a push the trim keeps the pushed entry and the last entries
    before it. *)
Lemma drop_push {A} (ops : list A) (op : A) :
  drop (length (ops ++ [op]) - maxOperations) (ops ++ [op]) =
  drop (length ops + 1 - maxOperations) ops ++ [op].
Proof.
  pose proof maxOperations_pos. rewrite length_app. simpl.
  rewrite drop_app_le by lia. done.
Qed.

Lemma addOperation_operations (log : t) (userId type : string) (data : Payload)
    (now : Z) (nonce : string) :
  let result := addOperation log userId type data now nonce in
  operations result.2 =
    drop (length (operations log) + 1 - maxOperations) (operations log)
      ++ [result.1] ∧
  op_id result.1 = generateOperationId userId now nonce ∧
  op_type result.1 = type ∧
  op_state result.1 = STATES_ACTIVE ∧
  op_userId result.1 = userId.
Proof.
  simpl. rewrite trimOperations_operations. simpl. by rewrite drop_push.
Qed.

Lemma flip_active_inactive (userId : string) (now : Z) (ops : list Operation) :
  List.filter is_active (map (flip_active userId now) ops) = [].
Proof.
  induction ops as [|op ops IH]; simpl; [done|].
  unfold flip_active at 1, is_active at 1.
  destruct (decide (op_state op = STATES_ACTIVE)) as [Hs|Hs].
  - rewrite (bool_decide_eq_true_2 _ Hs). simpl. done.
  - rewrite (bool_decide_eq_false_2 _ Hs).
    by rewrite (bool_decide_eq_false_2 _ Hs).
Qed.

Lemma clear_flip_others (clearId userId : string) (now : Z) (ops : list Operation) :
  clearId ∉ map op_id ops →
  map (clear_flip clearId userId now) ops = map (flip_active userId now) ops.
Proof.
  induction ops as [|op ops IH]; simpl; [done|].
  intros [Hne Hnotin]%not_elem_of_cons. rewrite IH by done. f_equal.
  unfold clear_flip, flip_active, is_active.
  rewrite bool_decide_eq_false_2 by done. done.
Qed.

End AppendTrim.

(** A run of C7: bob undoes alice's stroke, alice redoes it. *)
Lemma undo_redo_round_trip_witness :
  let undone :=
    OperationLog.undoOperation Scenario.log2 Scenario.id_alice "bob" 1700000000300 in
  let redone :=
    OperationLog.redoOperation undone.2 Scenario.id_alice "alice" 1700000000400 in
  map OperationLog.op_state (OperationLog.operations redone.2) = ["active"; "active"].
Proof.
  exact (proj2 (proj2 (proj2
    (undo_redo_round_trip Scenario.log2 Scenario.id_alice Scenario.op_alice
       "bob" "alice" "carol" 1700000000300 1700000000400 1700000000500
       eq_refl eq_refl)))).
Defined.

(** C2. [clearOperations(userId)], given that the id generated for the new
    operation is not yet in the log, appends exactly one operation, of type
    ['clear'] and state ['active'], behind the entries the trim keeps; among
    those, every entry that was ['active'] becomes ['undone'] with
    [undoneBy] the caller, and the others are as they were; the active
    operations are then exactly the new clear operation. *)
Theorem clearOperations_spec (log : OperationLog.t) (userId : string)
    (now : Z) (nonce : string) :
  OperationLog.generateOperationId userId now nonce
    ∉ map OperationLog.op_id (OperationLog.operations log) →
  let result := OperationLog.clearOperations log userId now nonce in
  let clearOp := result.1 in
  let kept :=
    drop (length (OperationLog.operations log) + 1 - OperationLog.maxOperations)
         (OperationLog.operations log) in
  OperationLog.op_id clearOp = OperationLog.generateOperationId userId now nonce ∧
  OperationLog.op_type clearOp = "clear" ∧
  OperationLog.op_state clearOp = "active" ∧
  OperationLog.op_userId clearOp = userId ∧
  OperationLog.operations result.2 =
    map (flip_active userId now) kept ++ [clearOp] ∧
  (∀ op, op ∈ kept → OperationLog.op_state op = "active" →
         OperationLog.op_state (flip_active userId now op) = "undone" ∧
         OperationLog.op_undoneBy (flip_active userId now op) = Some userId) ∧
  (∀ op, op ∈ kept → OperationLog.op_state op ≠ "active" →
         flip_active userId now op = op) ∧
  OperationLog.getActiveOperations result.2 = [clearOp].
Proof.
  intros Hfresh. cbv zeta.
  unfold OperationLog.clearOperations.
  set (data := OperationLog.ClearInfo _ _).
  pose proof (addOperation_operations log userId OperationLog.TYPES_CLEAR
                data now nonce) as Hadd. cbv zeta in Hadd.
  destruct (OperationLog.addOperation log userId OperationLog.TYPES_CLEAR
              data now nonce) as [clearOp log1] eqn:Heq.
  simpl in Hadd. destruct Hadd as (Hops & Hid & Hty & Hst & Hu). simpl.
  set (kept := drop _ (OperationLog.operations log)) in *.
  assert (OperationLog.op_id clearOp ∉ map OperationLog.op_id kept) as Hkept.
  { rewrite Hid. intros Hin. apply Hfresh.
    apply list_elem_of_fmap in Hin as (o & Ho & Hin).
    apply list_elem_of_fmap. exists o. split; [done|].
    unfold kept in Hin. by eapply subseteq_drop. }
  assert (map (OperationLog.clear_flip (OperationLog.op_id clearOp) userId now)
              (OperationLog.operations log1)
          = map (flip_active userId now) kept ++ [clearOp]) as Hmap.
  { rewrite Hops, map_app. rewrite (clear_flip_others _ _ _ _ Hkept). simpl.
    f_equal. unfold OperationLog.clear_flip.
    by rewrite bool_decide_eq_true_2. }
  do 4 (split; [done|]).
  split; [exact Hmap|]. split; [|split].
  - intros op _ Hs. unfold flip_active. by rewrite bool_decide_eq_true_2.
  - intros op _ Hs. unfold flip_active. by rewrite bool_decide_eq_false_2.
  - unfold OperationLog.getActiveOperations. simpl. rewrite Hmap.
    rewrite List.filter_app, flip_active_inactive. simpl.
    unfold OperationLog.is_active. by rewrite bool_decide_eq_true_2.
Qed.

(** A run of C2: carol clears the room of alice's and bob's strokes. *)
Lemma clearOperations_witness :
  let result :=
    OperationLog.clearOperations Scenario.log2 "carol" 1700000000300 "z1y2x3w4v" in
  OperationLog.getActiveOperations result.2 = [result.1].
Proof.
  refine (proj2 (proj2 (proj2 (proj2 (proj2 (proj2 (proj2
    (clearOperations_spec Scenario.log2 "carol" 1700000000300 "z1y2x3w4v" _)))))))).
  refine (bool_decide_unpack _ _). vm_compute. exact I.
Defined.

(** ** OperationLog: the cap on the history *)

Section Cap.
Import OperationLog.








End Cap.



(** ** OperationLog: export and import *)




(** ** VectorClock.sortEvents *)

(** C10. [compare] answers 0 when either clock is absent, and the
    comparator of [sortEvents] returns the difference of the timestamps for
    a pair of events of which at least one has no [vectorClock]; two such
    events are sorted by their timestamps. *)
Theorem absent_clock_is_concurrent (C : option VectorClock.Clock)
    (a b : OperationLog.Operation) :
  VectorClock.compare None C = 0%Z ∧
  VectorClock.compare C None = 0%Z ∧
  (OperationLog.op_vectorClock a = None ∨ OperationLog.op_vectorClock b = None →
   VectorClock.sortEvents_cmp a b =
     (OperationLog.op_timestamp a - OperationLog.op_timestamp b)%Z ∧
   VectorClock.sortEvents [a; b] =
     if (OperationLog.op_timestamp a >? OperationLog.op_timestamp b)%Z
     then [b; a] else [a; b]).
Proof.
  split; [done|]. split; [by destruct C|].
  intros Habsent.
  assert (VectorClock.sortEvents_cmp a b =
            (OperationLog.op_timestamp a - OperationLog.op_timestamp b)%Z) as Hcmp.
  { unfold VectorClock.sortEvents_cmp. simpl.
    destruct Habsent as [-> | ->]; [done|].
    by destruct (OperationLog.op_vectorClock a). }
  split; [exact Hcmp|].
  unfold VectorClock.sortEvents, VectorClock.array_sort. simpl. rewrite Hcmp.
  destruct (Z.gtb_spec (OperationLog.op_timestamp a) (OperationLog.op_timestamp b)),
           (Z.gtb_spec (OperationLog.op_timestamp a - OperationLog.op_timestamp b) 0);
    try lia; done.
Qed.

(** A run of C10: an event without a clock and a later one with a clock. *)
Lemma absent_clock_witness :
  VectorClock.sortEvents [Scenario.op_unclocked; Scenario.op_alice] =
    [Scenario.op_unclocked; Scenario.op_alice] ∧
  VectorClock.sortEvents [Scenario.op_alice; Scenario.op_unclocked] =
    [Scenario.op_unclocked; Scenario.op_alice].
Proof.
  split.
  - exact (proj2 (proj2 (proj2
      (absent_clock_is_concurrent None Scenario.op_unclocked Scenario.op_alice))
      (or_introl eq_refl))).
  - exact (proj2 (proj2 (proj2
      (absent_clock_is_concurrent None Scenario.op_alice Scenario.op_unclocked))
      (or_intror eq_refl))).
Defined.

(** ** The sort of [sortEvents] *)

Section SortFacts.
Context {A : Type} (cmp : A → A → Z).
Hypothesis cmp_antisym : ∀ x y, cmp x y = (- cmp y x)%Z.

(** Neighbours are in order: the left one does not compare greater. *)
Let in_order (x y : A) : Prop := (cmp x y ≤ 0)%Z.

Lemma sort_insert_length (x : A) (l : list A) :
  length (VectorClock.sort_insert cmp x l) = S (length l).
Proof.
  induction l as [|y l IH]; simpl; [done|].
  destruct (cmp x y >? 0)%Z; simpl; [by rewrite IH | done].
Qed.

Lemma array_sort_length (l : list A) :
  length (VectorClock.array_sort cmp l) = length l.
Proof.
  induction l as [|x l IH]; simpl; [done|].
  by rewrite sort_insert_length, IH.
Qed.

Lemma sort_insert_perm (x : A) (l : list A) :
  VectorClock.sort_insert cmp x l ≡ₚ x :: l.
Proof.
  induction l as [|y l IH]; simpl; [done|].
  destruct (cmp x y >? 0)%Z; [|done].
  rewrite IH. apply Permutation_swap.
Qed.

Lemma array_sort_perm (l : list A) : VectorClock.array_sort cmp l ≡ₚ l.
Proof.
  induction l as [|x l IH]; simpl; [done|].
  by rewrite sort_insert_perm, IH.
Qed.

Lemma sort_insert_sorted (x : A) (l : list A) :
  Sorted in_order l → Sorted in_order (VectorClock.sort_insert cmp x l).
Proof.
  induction 1 as [|y l Hl IH Hhd]; simpl.
  - by repeat constructor.
  - destruct (Z.gtb_spec (cmp x y) 0) as [Hgt|Hle].
    + constructor; [exact IH|].
      destruct l as [|z l]; simpl.
      * constructor. unfold in_order. rewrite cmp_antisym. lia.
      * destruct (cmp x z >? 0)%Z.
        -- constructor. by inversion Hhd.
        -- constructor. unfold in_order. rewrite cmp_antisym. lia.
    + constructor; [by constructor|]. by constructor.
Qed.

Lemma array_sort_sorted (l : list A) :
  Sorted in_order (VectorClock.array_sort cmp l).
Proof.
  induction l as [|x l IH]; simpl; [constructor|].
  by apply sort_insert_sorted.
Qed.

(** An array whose neighbours are in order is left as it is. *)
Lemma array_sort_fixed (l : list A) :
  Sorted in_order l → VectorClock.array_sort cmp l = l.
Proof.
  induction 1 as [|x l Hl IH Hhd]; simpl; [done|].
  change (VectorClock.sort_insert cmp x (VectorClock.array_sort cmp l) = x :: l).
  rewrite IH.
  destruct Hhd as [|y l Hxy]; simpl; [done|].
  destruct (Z.gtb_spec (cmp x y) 0) as [Hgt|Hle]; [|done].
  unfold in_order in Hxy. lia.
Qed.

Lemma array_sort_idempotent (l : list A) :
  VectorClock.array_sort cmp (VectorClock.array_sort cmp l) =
  VectorClock.array_sort cmp l.
Proof. apply array_sort_fixed, array_sort_sorted. Qed.

End SortFacts.

Lemma sortEvents_cmp_antisym (a b : OperationLog.Operation) :
  VectorClock.sortEvents_cmp a b = (- VectorClock.sortEvents_cmp b a)%Z.
Proof.
  unfold VectorClock.sortEvents_cmp.
  destruct (VectorClock.vectorClock a) as [ca|],
           (VectorClock.vectorClock b) as [cb|]; try lia.
  cbv zeta. rewrite (compare_antisym ca cb).
  destruct (Z.eqb_spec (VectorClock.compare (Some cb) (Some ca)) 0) as [->|Hne].
  - simpl. lia.
  - destruct (Z.eqb_spec (- VectorClock.compare (Some cb) (Some ca)) 0); [lia|].
    done.
Qed.

Lemma sortEvents_idempotent (events : list OperationLog.Operation) :
  VectorClock.sortEvents (VectorClock.sortEvents events) =
  VectorClock.sortEvents events.
Proof. apply array_sort_idempotent, sortEvents_cmp_antisym. Qed.

(** ** OperationLog.mergeOperations *)

Section Merge.
Import OperationLog.

Lemma filter_none {A} (f : A → bool) (l : list A) :
  (∀ x, x ∈ l → f x = false) → List.filter f l = [].
Proof.
  induction l as [|x l IH]; simpl; [done|]. intros H.
  rewrite (H x) by set_solver. apply IH. intros y Hy. apply H. set_solver.
Qed.

Lemma elem_of_filter_list {A} (f : A → bool) (l : list A) (x : A) :
  x ∈ l → f x = true → x ∈ List.filter f l.
Proof.
  intros Hin Hf. apply list_elem_of_In, List.filter_In.
  split; [by apply list_elem_of_In | done].
Qed.

(** The operations of [externalOperations] that [mergeOperations] adds. *)
Lemma merge_unfold (log : t) (ext : list Operation) :
  ∃ newOps clock,
    newOps = List.filter
               (fun op => negb (bool_decide
                  (op_id op ∈ map op_id (operations log))))
               ext ∧
    clock = foldl (fun clock op =>
                     match op_vectorClock op with
                     | Some remote => VectorClock.update clock (Some remote)
                     | None => clock
                     end)
                  (vectorClock log) newOps ∧
    mergeOperations log ext =
      (let log' := trimOperations (mkLog (roomId log)
                     (VectorClock.sortEvents (operations log ++ newOps))
                     clock (createdAt log)) in
       ({| merged := length newOps; total := length (operations log') |}, log')).
Proof. eexists _, _. split; [reflexivity|]. split; reflexivity. Qed.

End Merge.

(** C6 (amended). When the first [mergeOperations(ops)] does not trim (the
    operations of the log and those new to it are at most [maxOperations]
    together), a second [mergeOperations(ops)] merges 0 operations and
    leaves the whole log, its operation sequence and its vector clock, as
    the first call left it. *)
Theorem mergeOperations_twice (log : OperationLog.t)
    (ops : list OperationLog.Operation) :
  let first := OperationLog.mergeOperations log ops in
  length (OperationLog.operations log) + OperationLog.merged first.1
    ≤ OperationLog.maxOperations →
  OperationLog.mergeOperations first.2 ops =
    ({| OperationLog.merged := 0;
        OperationLog.total := OperationLog.total first.1 |}, first.2).
Proof.
  cbv zeta.
  destruct (merge_unfold log ops) as (newOps & clock & HnewOps & _ & ->).
  cbv zeta. simpl. intros Hfit.
  set (sorted := VectorClock.sortEvents (OperationLog.operations log ++ newOps)).
  assert (length sorted =
          length (OperationLog.operations log) + length newOps) as Hlen.
  { unfold sorted, VectorClock.sortEvents.
    by rewrite array_sort_length, length_app. }
  rewrite trimOperations_id by (simpl; lia).
  set (log1 := OperationLog.mkLog _ sorted clock _).
  destruct (merge_unfold log1 ops) as (newOps' & clock' & HnewOps' & Hclock & ->).
  assert (newOps' = []) as Hnone.
  { rewrite HnewOps'. apply filter_none. intros op Hop.
    apply negb_false_iff, bool_decide_eq_true.
    simpl. unfold sorted, VectorClock.sortEvents.
    rewrite array_sort_perm, map_app. apply elem_of_app.
    destruct (decide (OperationLog.op_id op ∈
                map OperationLog.op_id (OperationLog.operations log)))
      as [Hin|Hnotin]; [by left|].
    right. apply list_elem_of_fmap. exists op. split; [done|].
    rewrite HnewOps. apply elem_of_filter_list; [done|].
    by apply negb_true_iff, bool_decide_eq_false. }
  clear HnewOps'. subst newOps'. simpl in Hclock. subst clock'.
  cbv zeta. rewrite app_nil_r. simpl.
  unfold sorted. rewrite sortEvents_idempotent. fold sorted.
  rewrite trimOperations_id by (simpl; lia).
  reflexivity.
Qed.

(** A run of the amended C6: two remote operations are merged twice into
    the log of alice's and bob's strokes. *)
Lemma mergeOperations_twice_witness :
  let first :=
    OperationLog.mergeOperations Scenario.log2
      [Scenario.op_unclocked; Scenario.op_bob_remote] in
  OperationLog.mergeOperations first.2
      [Scenario.op_unclocked; Scenario.op_bob_remote] =
    ({| OperationLog.merged := 0; OperationLog.total := 4 |}, first.2).
Proof.
  apply (mergeOperations_twice Scenario.log2
           [Scenario.op_unclocked; Scenario.op_bob_remote]).
  vm_compute. lia.
Defined.

(** C6 as stated fails on a log at the cap.  The first merge adds bob's
    stroke and trims the oldest entry; the id of that entry is then free,
    so the second merge adds the operation that carries it and trims
    again: it merges one operation and the log loses another entry. *)
Lemma mergeOperations_twice_counterexample :
  let first :=
    OperationLog.mergeOperations Scenario.log_full_alice Scenario.remote_ops in
  let second := OperationLog.mergeOperations first.2 Scenario.remote_ops in
  OperationLog.merged first.1 = 1 ∧
  OperationLog.merged second.1 = 1 ∧
  OperationLog.hasOperation first.2 "alice_1700000000101_k3j9x0a1b" = true ∧
  OperationLog.hasOperation second.2 "alice_1700000000101_k3j9x0a1b" = false ∧
  second.2 ≠ first.2.
Proof.
  cbv zeta.
  assert (OperationLog.hasOperation
            (OperationLog.mergeOperations Scenario.log_full_alice
               Scenario.remote_ops).2 "alice_1700000000101_k3j9x0a1b" = true)
    as Hfirst by (vm_compute; reflexivity).
  assert (OperationLog.hasOperation
            (OperationLog.mergeOperations
               (OperationLog.mergeOperations Scenario.log_full_alice
                  Scenario.remote_ops).2 Scenario.remote_ops).2
            "alice_1700000000101_k3j9x0a1b" = false)
    as Hsecond by (vm_compute; reflexivity).
  split; [vm_compute; reflexivity|].
  split; [vm_compute; reflexivity|].
  split; [exact Hfirst|]. split; [exact Hsecond|].
  intros Heq. rewrite Heq in Hsecond. congruence.
Qed.

(** ** RoomManager: admission *)

Section Admission.
Import RoomManager.

Lemma getRoom_spec (st : t) (roomId : string) (now : Z) :
  let result := getRoom st roomId now in
  rooms result.2 = <[roomId := result.1]> (rooms st) ∧
  users result.2 = users st ∧ heap result.2 = heap st ∧
  timers result.2 = timers st ∧
  size (r_users result.1) = members st roomId ∧
  (rooms st !! roomId = Some result.1 ∧ result.2 = st ∨
   rooms st !! roomId = None ∧ r_users result.1 = ∅).
Proof.
  unfold getRoom, createRoom, members.
  destruct (rooms st !! roomId) as [room|] eqn:Hroom; simpl.
  - rewrite insert_id by done. repeat split; auto.
  - repeat split; auto.
Qed.

Lemma joinRoom_full (st : t) (socketId roomId : string)
    (username : option string) (now : Z) (rnd : Random) :
  maxUsersPerRoom ≤ members st roomId →
  joinRoom st socketId roomId username now rnd = (JoinFailure "Room is full", st).
Proof.
  intros Hfull. unfold joinRoom.
  pose proof (getRoom_spec st roomId now) as H. cbv zeta in H.
  destruct (getRoom st roomId now) as [room st1]. simpl in H.
  destruct H as (_ & _ & _ & _ & Hsize & [[_ ->] | [Hnone Hempty]]).
  - destruct (decide _) as [|Hlt]; [done|]. lia.
  - unfold members in Hfull. rewrite Hnone in Hfull.
    unfold maxUsersPerRoom in Hfull. lia.
Qed.

(** The state after an admitted join. *)
Lemma joinRoom_admitted (st : t) (socketId roomId : string)
    (username : option string) (now : Z) (rnd : Random) :
  members st roomId < maxUsersPerRoom →
  ∃ user info room,
    joinRoom st socketId roomId username now rnd =
      (JoinSuccess user info,
       {| rooms := <[roomId :=
                      mkRoom (r_id room)
                        (<[generateUserId now (rnd_nonce rnd) := length (heap st)]>
                           (r_users room))
                        (r_operationLog room) (r_createdAt room) now]> (rooms st);
          users := <[socketId := length (heap st)]> (users st);
          heap := heap st ++ [user];
          timers := timers st |}) ∧
    room = (getRoom st roomId now).1 ∧
    u_id user = generateUserId now (rnd_nonce rnd) ∧
    u_socketId user = socketId ∧ u_roomId user = roomId.
Proof.
  intros Hlt. unfold joinRoom.
  pose proof (getRoom_spec st roomId now) as H. cbv zeta in H.
  destruct (getRoom st roomId now) as [room st1]. simpl in H.
  destruct H as (Hrooms & Husers & Hheap & Htimers & Hsize & _).
  destruct (decide _) as [Hge|_]; [lia|].
  cbv zeta. rewrite Hrooms, Husers, Hheap, Htimers, insert_insert_eq.
  eexists _, _, room. split; [reflexivity|]. simpl. auto.
Qed.

Lemma joinRoom_fails_iff (st : t) (socketId roomId : string)
    (username : option string) (now : Z) (rnd : Random) :
  (∃ error, (joinRoom st socketId roomId username now rnd).1 = JoinFailure error)
  ↔ maxUsersPerRoom ≤ members st roomId.
Proof.
  split.
  - intros [error Herr].
    destruct (decide (maxUsersPerRoom ≤ members st roomId)) as [|Hlt]; [done|].
    destruct (joinRoom_admitted st socketId roomId username now rnd)
      as (user & info & room & Heq & _); [lia|].
    rewrite Heq in Herr. done.
  - intros Hfull. rewrite joinRoom_full by done. by eexists.
Qed.

(** A member that leaves makes room for one more. *)
Lemma leaveRoom_members (st : t) (leaver : string) (now : Z)
    (user : User) (room : Room) :
  getUser st leaver = Some user →
  rooms st !! u_roomId user = Some room →
  is_Some (r_users room !! u_id user) →
  members (leaveRoom st leaver now).2 (u_roomId user) = pred (size (r_users room)).
Proof.
  intros Huser Hroom Hmember. unfold leaveRoom. rewrite Huser, Hroom.
  assert (∀ st0 : t,
            rooms st0 = <[u_roomId user :=
                          mkRoom (r_id room) (delete (u_id user) (r_users room))
                            (r_operationLog room) (r_createdAt room)
                            (r_lastActivity room)]> (rooms st) →
            members st0 (u_roomId user) = pred (size (r_users room))) as Hm.
  { intros st0 Hst0. unfold members. rewrite Hst0, lookup_insert_eq. simpl.
    by rewrite map_size_delete_Some. }
  simpl. destruct (bool_decide _); by apply Hm.
Qed.

End Admission.

(** C3 (amended). [joinRoom(socketId, roomId, username)] fails if and only
    if the room already has 20 ([maxUsersPerRoom]) or more members; the
    failure result is [{success: false, error: 'Room is full'}] and the
    manager is left as it was, no user added to the room or to the
    sessions.  With fewer than 20 members the join succeeds and the new
    user is in the room's map and in the sessions map; and after a member
    of a room of 20 has left, a join to that room succeeds again. *)
Theorem joinRoom_capacity (st : RoomManager.t) (socketId roomId : string)
    (username : option string) (now : Z) (rnd : RoomManager.Random) :
  let result := RoomManager.joinRoom st socketId roomId username now rnd in
  RoomManager.maxUsersPerRoom = 20 ∧
  ((∃ error, result.1 = RoomManager.JoinFailure error) ↔
   20 ≤ RoomManager.members st roomId) ∧
  (20 ≤ RoomManager.members st roomId →
   result = (RoomManager.JoinFailure "Room is full", st)) ∧
  (RoomManager.members st roomId < 20 →
   ∃ user info room address,
     result.1 = RoomManager.JoinSuccess user info ∧
     RoomManager.u_socketId user = socketId ∧
     RoomManager.u_roomId user = roomId ∧
     RoomManager.rooms result.2 !! roomId = Some room ∧
     RoomManager.r_users room !! RoomManager.u_id user = Some address ∧
     RoomManager.users result.2 !! socketId = Some address ∧
     RoomManager.heap result.2 !! address = Some user) ∧
  (∀ (leaver : string) (left : Z) (user : RoomManager.User)
     (room : RoomManager.Room),
     RoomManager.members st roomId = 20 →
     RoomManager.getUser st leaver = Some user →
     RoomManager.u_roomId user = roomId →
     RoomManager.rooms st !! roomId = Some room →
     is_Some (RoomManager.r_users room !! RoomManager.u_id user) →
     ∃ user' info,
       (RoomManager.joinRoom (RoomManager.leaveRoom st leaver left).2
          socketId roomId username now rnd).1 =
       RoomManager.JoinSuccess user' info).
Proof.
  cbv zeta. split; [done|].
  split; [apply joinRoom_fails_iff|].
  split; [apply joinRoom_full|].
  split.
  - intros Hlt.
    destruct (joinRoom_admitted st socketId roomId username now rnd Hlt)
      as (user & info & room & -> & _ & Hid & Hsock & Hroom).
    simpl. eexists user, info, _, (length (RoomManager.heap st)).
    split; [done|]. split; [done|]. split; [done|].
    split; [apply lookup_insert_eq|]. simpl.
    split; [rewrite Hid; apply lookup_insert_eq|].
    split; [apply lookup_insert_eq|].
    by apply list_lookup_middle.
  - intros leaver left user room Hfull Huser <- Hroom Hmember.
    pose proof (leaveRoom_members st leaver left user room Huser Hroom Hmember)
      as Hleft.
    unfold RoomManager.members in Hfull. rewrite Hroom in Hfull.
    rewrite Hfull in Hleft. simpl in Hleft.
    destruct (joinRoom_admitted (RoomManager.leaveRoom st leaver left).2
                socketId (RoomManager.u_roomId user) username now rnd)
      as (user' & info & room' & -> & _).
    { rewrite Hleft. unfold RoomManager.maxUsersPerRoom. lia. }
    by exists user', info.
Qed.

(** A run of the amended C3: a socket that is refused by the full room
    [r2] is admitted once socket 3 has left. *)
Lemma joinRoom_capacity_witness :
  RoomManager.joinRoom Scenario.manager_full "socket20" "r2" None
      1700000001000 Scenario.rnd_late =
    (RoomManager.JoinFailure "Room is full", Scenario.manager_full) ∧
  ∃ user' info,
    (RoomManager.joinRoom
       (RoomManager.leaveRoom Scenario.manager_full "socket3" 1700000000500).2
       "socket20" "r2" None 1700000001000 Scenario.rnd_late).1 =
    RoomManager.JoinSuccess user' info.
Proof.
  pose proof (joinRoom_capacity Scenario.manager_full "socket20" "r2" None
                1700000001000 Scenario.rnd_late) as H.
  cbv zeta in H. destruct H as (_ & _ & Hfull & _ & Hleave).
  split.
  - apply Hfull. vm_compute. lia.
  - eapply (Hleave "socket3" 1700000000500%Z).
    + vm_compute. reflexivity.
    + vm_compute. reflexivity.
    + vm_compute. reflexivity.
    + vm_compute. reflexivity.
    + vm_compute. eexists. reflexivity.
Defined.

(** C3 as stated fails on the error string: a join to the full room [r2]
    is refused with ['Room is full'], not with ['room_full']. *)
Lemma joinRoom_full_counterexample :
  RoomManager.members Scenario.manager_full "r2" = 20 ∧
  (RoomManager.joinRoom Scenario.manager_full "socket20" "r2" None
     1700000001000 Scenario.rnd_late).1 = RoomManager.JoinFailure "Room is full" ∧
  (RoomManager.joinRoom Scenario.manager_full "socket20" "r2" None
     1700000001000 Scenario.rnd_late).1 ≠ RoomManager.JoinFailure "room_full".
Proof.
  assert (RoomManager.members Scenario.manager_full "r2" = 20) as Hfull
    by (vm_compute; reflexivity).
  split; [exact Hfull|].
  rewrite joinRoom_full by (rewrite Hfull; unfold RoomManager.maxUsersPerRoom; lia).
  split; [done|]. simpl. intros [=].
Qed.

(** ** RoomManager: the rooms and the sessions agree *)

Section Agreement.
Import RoomManager.

Lemma maps_agree_ext (st st' : t) :
  rooms st' = rooms st → users st' = users st → heap st' = heap st →
  maps_agree st → maps_agree st'.
Proof.
  unfold maps_agree, members_are_sessions, sessions_are_members.
  by intros -> -> ->.
Qed.

Lemma maps_agree_new : maps_agree new.
Proof. split; intros ? ? *; simpl; by rewrite lookup_empty. Qed.

(** A session is the only one for its user object. *)
Lemma session_user (st : t) (socketId : string) (address : ref) :
  maps_agree st → users st !! socketId = Some address →
  ∃ user room, heap st !! address = Some user ∧
               u_socketId user = socketId ∧
               rooms st !! u_roomId user = Some room ∧
               r_users room !! u_id user = Some address.
Proof. intros [_ H]. apply H. Qed.

Lemma getRoom_room (st : t) (roomId : string) (now : Z) :
  (∀ room0, rooms st !! roomId = Some room0 → room0 = (getRoom st roomId now).1) ∧
  (∀ userId address,
     r_users (getRoom st roomId now).1 !! userId = Some address →
     rooms st !! roomId = Some (getRoom st roomId now).1).
Proof.
  pose proof (getRoom_spec st roomId now) as H. cbv zeta in H.
  destruct H as (_ & _ & _ & _ & _ & [[Hsome _] | [Hnone Hempty]]).
  - split; [intros room0 Hr; congruence | done].
  - split; [intros room0 Hr; congruence |].
    intros userId address. by rewrite Hempty, lookup_empty.
Qed.

Lemma joinRoom_agree (st : t) (socketId roomId : string)
    (username : option string) (now : Z) (rnd : Random) :
  maps_agree st →
  guarded st (OpJoin socketId roomId username now rnd) = true →
  maps_agree (joinRoom st socketId roomId username now rnd).2.
Proof.
  intros Hagree Hguard.
  destruct (decide (members st roomId < maxUsersPerRoom)) as [Hlt|Hge];
    [|by rewrite joinRoom_full by lia].
  destruct (joinRoom_admitted st socketId roomId username now rnd Hlt)
    as (user & info & room & -> & Hroom & Hid & Hsock & Hrid).
  destruct (getRoom_room st roomId now) as [Hsame Hold].
  rewrite <- Hroom in Hsame, Hold. rewrite <- Hid.
  simpl in Hguard. apply andb_true_iff in Hguard as [Hfree Hfresh].
  apply bool_decide_eq_true in Hfree.
  assert (r_users room !! u_id user = None) as Hnew.
  { destruct (r_users room !! u_id user) as [a|] eqn:Hm; [|done].
    rewrite (Hold _ _ Hm) in Hfresh. apply bool_decide_eq_true in Hfresh.
    rewrite Hid in Hm. congruence. }
  clear Hfresh. destruct Hagree as [Hmem Hses]. simpl.
  split.
  - intros roomId' room' userId address Hr Hm. simpl in *.
    assert (∀ room0, rooms st !! roomId' = Some room0 →
                     r_users room0 !! userId = Some address →
                     ∃ user0, (heap st ++ [user]) !! address = Some user0 ∧
                              u_id user0 = userId ∧ u_roomId user0 = roomId' ∧
                              <[socketId := length (heap st)]> (users st)
                                !! u_socketId user0 = Some address) as Hkeep.
    { intros room0 Hr0 Hm0.
      destruct (Hmem _ _ _ _ Hr0 Hm0) as (user0 & Hh & Hi & Hr' & Hu).
      exists user0. split; [by apply lookup_app_l_Some|].
      split; [done|]. split; [done|].
      rewrite lookup_insert_ne; [done|]. congruence. }
    apply lookup_insert_Some in Hr as [[<- <-] | [Hne Hr]]; [|by eapply Hkeep].
    simpl in Hm.
    apply lookup_insert_Some in Hm as [[<- <-] | [Hne Hm]].
    + exists user. split; [by apply list_lookup_middle|].
      split; [done|]. split; [done|]. rewrite Hsock. apply lookup_insert_eq.
    + eapply Hkeep; [|exact Hm]. by eapply Hold.
  - intros socketId' address Hs. simpl in *.
    apply lookup_insert_Some in Hs as [[<- <-] | [Hne Hs]].
    + exists user. eexists. split; [by apply list_lookup_middle|].
      split; [done|]. rewrite Hrid. split; [apply lookup_insert_eq|].
      simpl. apply lookup_insert_eq.
    + destruct (Hses _ _ Hs) as (user0 & room0 & Hh & Hso & Hr & Hm).
      exists user0.
      destruct (decide (u_roomId user0 = roomId)) as [Heq|Hneq].
      * rewrite Heq in Hr. apply Hsame in Hr as ->.
        eexists. split; [by apply lookup_app_l_Some|]. split; [done|].
        rewrite Heq. split; [apply lookup_insert_eq|]. simpl.
        rewrite lookup_insert_ne; [done|]. congruence.
      * exists room0. split; [by apply lookup_app_l_Some|]. split; [done|].
        split; [|done]. by rewrite lookup_insert_ne.
Qed.

Lemma leaveRoom_agree (st : t) (socketId : string) (now : Z) :
  maps_agree st → maps_agree (leaveRoom st socketId now).2.
Proof.
  intros Hagree. unfold leaveRoom, getUser.
  destruct (users st !! socketId) as [address|] eqn:Hs; simpl; [|done].
  destruct (heap st !! address) as [user|] eqn:Hh; simpl; [|done].
  destruct (rooms st !! u_roomId user) as [room|] eqn:Hr; simpl; [|done].
  set (room' := mkRoom _ (delete (u_id user) (r_users room)) _ _ _).
  set (st1 := mkManager (<[u_roomId user := room']> (rooms st))
                (delete socketId (users st)) (heap st) (timers st)).
  assert (maps_agree st1) as Hst1; [|by destruct (bool_decide _)].
  destruct (session_user st socketId address Hagree Hs)
    as (user_ & room_ & Hh_ & Hsock & Hr_ & Hm).
  assert (user_ = user) as -> by congruence.
  assert (room_ = room) as -> by congruence. clear Hh_ Hr_.
  destruct Hagree as [Hmem Hses]. split.
  - intros roomId' room'' userId a Hr' Hm'. simpl in *.
    assert (∀ room0, rooms st !! roomId' = Some room0 →
                     r_users room0 !! userId = Some a →
                     (roomId' = u_roomId user → userId ≠ u_id user) →
                     ∃ user0, heap st !! a = Some user0 ∧
                              u_id user0 = userId ∧ u_roomId user0 = roomId' ∧
                              delete socketId (users st)
                                !! u_socketId user0 = Some a) as Hkeep.
    { intros room0 Hr0 Hm0 Hother.
      destruct (Hmem _ _ _ _ Hr0 Hm0) as (user0 & Hh0 & Hi & Hri & Hu).
      exists user0. do 3 (split; [done|]).
      rewrite lookup_delete_ne; [done|].
      intros Heq. rewrite <- Heq in Hu.
      assert (a = address) as -> by congruence.
      assert (user0 = user) as -> by congruence.
      by apply Hother. }
    apply lookup_insert_Some in Hr' as [[<- <-] | [Hne Hr']].
    + simpl in Hm'. apply lookup_delete_Some in Hm' as [Hne Hm'].
      eapply Hkeep; [exact Hr | exact Hm' | done].
    + eapply Hkeep; [exact Hr' | exact Hm' | done].
  - intros socketId' a Hs'. simpl in *.
    apply lookup_delete_Some in Hs' as [Hne Hs'].
    destruct (Hses _ _ Hs') as (user0 & room0 & Hh0 & Hso & Hr0 & Hm0).
    exists user0.
    destruct (decide (u_roomId user0 = u_roomId user)) as [Heq|Hneq].
    + rewrite Heq in Hr0. assert (room0 = room) as -> by congruence.
      exists room'. split; [done|]. split; [done|].
      rewrite Heq. split; [apply lookup_insert_eq|]. simpl.
      rewrite lookup_delete_ne; [done|].
      intros Hid. rewrite <- Hid in Hm0.
      assert (a = address) as -> by congruence.
      assert (user0 = user) as -> by congruence. congruence.
    + exists room0. split; [done|]. split; [done|].
      split; [|done]. by rewrite lookup_insert_ne.
Qed.

End Agreement.

Section AgreementKept.
Import RoomManager.

Lemma updateActivity_agree (st : t) (socketId : string) (now : Z) :
  maps_agree st → maps_agree (updateActivity st socketId now).
Proof.
  intros [Hmem Hses]. unfold updateActivity.
  destruct (users st !! socketId) as [address|] eqn:Hs; [|done].
  destruct (heap st !! address) as [user|] eqn:Hh; [|done].
  assert (∀ a user0, heap st !! a = Some user0 →
            ∃ user1, <[address := touch_user now user]> (heap st) !! a = Some user1 ∧
                     u_id user1 = u_id user0 ∧
                     u_socketId user1 = u_socketId user0 ∧
                     u_roomId user1 = u_roomId user0) as Hheap.
  { intros a user0 Ha. destruct (decide (address = a)) as [<-|Hne].
    - exists (touch_user now user). assert (user0 = user) as -> by congruence.
      split; [|done]. apply list_lookup_insert_eq. by eapply lookup_lt_Some.
    - exists user0. by rewrite list_lookup_insert_ne. }
  assert (∀ roomId room1,
            alter (touch_room now) (u_roomId user) (rooms st) !! roomId = Some room1 →
            ∃ room0, rooms st !! roomId = Some room0 ∧
                     r_users room1 = r_users room0) as Hback.
  { intros roomId room1 Hr. apply lookup_alter_Some in Hr
      as [(_ & room0 & Hr0 & ->) | [_ Hr0]]; eauto. }
  assert (∀ roomId room0,
            rooms st !! roomId = Some room0 →
            ∃ room1, alter (touch_room now) (u_roomId user) (rooms st) !! roomId
                       = Some room1 ∧
                     r_users room1 = r_users room0) as Hforth.
  { intros roomId room0 Hr0. rewrite lookup_alter. case_decide as Hkey.
    - rewrite Hkey, Hr0. simpl. by eexists.
    - by exists room0. }
  split.
  - intros roomId room1 userId a Hr Hm. simpl in *.
    destruct (Hback _ _ Hr) as (room0 & Hr0 & Heq). rewrite Heq in Hm.
    destruct (Hmem _ _ _ _ Hr0 Hm) as (user0 & Ha & Hi & Hri & Hu).
    destruct (Hheap _ _ Ha) as (user1 & Ha1 & Hi1 & Hs1 & Hr1).
    exists user1. split; [done|]. rewrite Hi1, Hs1, Hr1. done.
  - intros socketId' a Hs'. simpl in *.
    destruct (Hses _ _ Hs') as (user0 & room0 & Ha & Hso & Hr0 & Hm0).
    destruct (Hheap _ _ Ha) as (user1 & Ha1 & Hi1 & Hs1 & Hr1).
    destruct (Hforth _ _ Hr0) as (room1 & Hr1' & Heq).
    exists user1, room1. split; [done|]. rewrite Hi1, Hs1, Hr1, Heq. done.
Qed.

Lemma deleteRoom_lookup (st : t) (roomId roomId' : string) (room : Room) :
  rooms (deleteRoom st roomId) !! roomId' = Some room →
  rooms st !! roomId' = Some room.
Proof.
  unfold deleteRoom. destruct (rooms st !! roomId); [|done]. simpl.
  by intros [_ ?]%lookup_delete_Some.
Qed.

(** Deleting a room without members keeps the agreement. *)
Lemma deleteRoom_agree (st : t) (roomId : string) :
  (∀ room, rooms st !! roomId = Some room → size (r_users room) = 0) →
  maps_agree st → maps_agree (deleteRoom st roomId).
Proof.
  intros Hempty [Hmem Hses]. unfold deleteRoom.
  destruct (rooms st !! roomId) as [room|] eqn:Hr; [|done].
  specialize (Hempty room eq_refl). apply map_size_empty_inv in Hempty.
  split.
  - intros roomId' room' userId a Hr' Hm. simpl in *.
    apply lookup_delete_Some in Hr' as [_ Hr']. by eapply Hmem.
  - intros socketId a Hs. simpl in *.
    destruct (Hses _ _ Hs) as (user0 & room0 & Ha & Hso & Hr0 & Hm0).
    exists user0, room0. split; [done|]. split; [done|]. split; [|done].
    rewrite lookup_delete_ne; [done|]. intros Heq. rewrite <- Heq in Hr0.
    assert (room0 = room) as -> by congruence.
    by rewrite Hempty, lookup_empty in Hm0.
Qed.

Lemma roomCleanupCallback_agree (st : t) (roomId : string) (now : Z) :
  maps_agree st → maps_agree (roomCleanupCallback st roomId now).
Proof.
  intros Hagree. unfold roomCleanupCallback.
  destruct (rooms st !! roomId) as [room|] eqn:Hr; [|done].
  case_bool_decide as Hsize; [|done].
  destruct (_ >? _)%Z; [|done].
  apply deleteRoom_agree; [|done]. intros room0 Hr0. congruence.
Qed.

Lemma fireTimer_agree (st : t) (index : nat) (now : Z) :
  maps_agree st → maps_agree (fireTimer st index now).
Proof.
  intros Hagree. unfold fireTimer.
  destruct (timers st !! index) as [[roomId due]|]; [|done].
  destruct (_ <=? _)%Z; [|done].
  apply roomCleanupCallback_agree. by eapply maps_agree_ext.
Qed.

Lemma foldl_deleteRoom_agree (l : list string) (st : t) :
  (∀ roomId room, roomId ∈ l → rooms st !! roomId = Some room →
                  size (r_users room) = 0) →
  maps_agree st → maps_agree (foldl deleteRoom st l).
Proof.
  revert st. induction l as [|roomId l IH]; intros st Hempty Hagree; simpl; [done|].
  apply IH.
  - intros roomId' room Hin Hr. apply deleteRoom_lookup in Hr.
    eapply Hempty; [|exact Hr]. set_solver.
  - apply deleteRoom_agree; [|done]. intros room Hr.
    eapply Hempty; [|exact Hr]. set_solver.
Qed.

Lemma cleanupTick_agree (st : t) (now : Z) :
  guarded st (OpTick now) = true →
  maps_agree st → maps_agree (cleanupTick st now).
Proof.
  intros Hguard Hagree. unfold cleanupTick.
  apply foldl_deleteRoom_agree; [|done].
  intros roomId room Hin Hr.
  apply list_elem_of_fmap in Hin as ([roomId' room'] & -> & Hin).
  apply list_elem_of_In, List.filter_In in Hin as [Hin Hreaped].
  apply list_elem_of_In, elem_of_map_to_list in Hin. simpl in *.
  assert (room' = room) as -> by congruence.
  rewrite forallb_forall in Hguard.
  specialize (Hguard (roomId', room)). simpl in Hguard.
  destruct (decide (size (r_users room) = 0)) as [|Hsize]; [done|].
  unfold reaped in Hreaped.
  rewrite (bool_decide_eq_false_2 _ Hsize) in Hreaped. simpl in Hreaped.
  rewrite (bool_decide_eq_false_2 _ Hsize) in Hguard. simpl in Hguard.
  assert ((now - r_lastActivity room <=? roomTimeout)%Z = true) as Hyoung.
  { apply Hguard. by apply list_elem_of_In, elem_of_map_to_list. }
  destruct (Z.gtb_spec (now - r_lastActivity room) roomTimeout); [|done].
  apply Z.leb_le in Hyoung. lia.
Qed.

Lemma run_op_agree (st : t) (o : Op) :
  guarded st o = true → maps_agree st → maps_agree (run_op st o).
Proof.
  intros Hguard Hagree. destruct o; simpl.
  - by apply joinRoom_agree.
  - by apply leaveRoom_agree.
  - by apply updateActivity_agree.
  - by apply fireTimer_agree.
  - by apply cleanupTick_agree.
Qed.

Lemma run_agree (ops : list Op) (st : t) :
  guarded_run st ops = true → maps_agree st → maps_agree (run st ops).
Proof.
  revert st. induction ops as [|o ops IH]; intros st Hguard Hagree; [done|].
  simpl in Hguard. apply andb_true_iff in Hguard as [Ho Hops].
  apply IH; [exact Hops|]. by apply run_op_agree.
Qed.

(** Under the agreement a socket without a session has no member left. *)
Lemma unreferenced_agree (st : t) (socketId : string) :
  maps_agree st → users st !! socketId = None → unreferenced st socketId.
Proof.
  intros [Hmem _] Hs. split; [done|].
  intros roomId room userId a user Hr Hm Ha Hsock.
  destruct (Hmem _ _ _ _ Hr Hm) as (user0 & Ha0 & _ & _ & Hu).
  assert (user0 = user) as -> by congruence. congruence.
Qed.

Lemma leaveRoom_session_gone (st : t) (socketId : string) (now : Z) :
  maps_agree st → users (leaveRoom st socketId now).2 !! socketId = None.
Proof.
  intros Hagree. unfold leaveRoom, getUser.
  destruct (users st !! socketId) as [address|] eqn:Hs; simpl; [|done].
  destruct (session_user st socketId address Hagree Hs)
    as (user & room & Hh & _ & Hr & _).
  rewrite Hh. simpl. rewrite Hr.
  destruct (bool_decide _); simpl; apply lookup_delete_eq.
Qed.

(** A session whose room is gone cannot leave. *)
Lemma leaveRoom_roomless (st : t) (socketId : string) (now : Z) (user : User) :
  getUser st socketId = Some user → rooms st !! u_roomId user = None →
  leaveRoom st socketId now = (None, st).
Proof. unfold leaveRoom. by intros -> ->. Qed.

End AgreementKept.

(** C8 (amended). In every state reached from a new manager by [joinRoom]
    calls for sockets that have no session (the generated user id not yet
    in the room), [leaveRoom], [updateActivity], due callbacks of
    [scheduleRoomCleanup], and ticks of the periodic cleanup at which no
    room with members has been inactive for more than [roomTimeout], the
    maps agree: every member of a room is the session of its socket and
    records that room, and every session is a member of an existing room.
    In such a state, after [leaveRoom] neither the sessions nor any room
    refers to the socket that left. *)
Theorem guarded_runs_agree (ops : list RoomManager.Op) (socketId : string)
    (now : Z) :
  RoomManager.guarded_run RoomManager.new ops = true →
  let st := RoomManager.run RoomManager.new ops in
  RoomManager.maps_agree st ∧
  RoomManager.unreferenced (RoomManager.leaveRoom st socketId now).2 socketId.
Proof.
  intros Hguard. cbv zeta.
  pose proof (run_agree ops RoomManager.new Hguard maps_agree_new) as Hagree.
  split; [exact Hagree|].
  apply unreferenced_agree.
  - by apply leaveRoom_agree.
  - by apply leaveRoom_session_gone.
Qed.

(** A run of the amended C8: ben leaves after the afternoon. *)
Lemma guarded_runs_agree_witness :
  RoomManager.maps_agree (RoomManager.run RoomManager.new Scenario.afternoon) ∧
  RoomManager.unreferenced
    (RoomManager.leaveRoom (RoomManager.run RoomManager.new Scenario.afternoon)
       "socketB" 1700000400000).2 "socketB".
Proof.
  apply (guarded_runs_agree Scenario.afternoon "socketB" 1700000400000).
  vm_compute. reflexivity.
Defined.

(** C8 as stated fails.  ann joins and stays idle for over an hour; the
    periodic cleanup deletes her room although she is a member.  Her
    session remains and names a room that no longer exists, and
    [leaveRoom] then returns [null] without removing the session. *)
Lemma reaper_breaks_agreement :
  let st := RoomManager.run RoomManager.new Scenario.idle_hour in
  RoomManager.users st !! "socketA" = Some 0 ∧
  RoomManager.u_roomId <$> RoomManager.heap st !! 0 = Some "r1" ∧
  RoomManager.rooms st !! "r1" = None ∧
  ¬ RoomManager.maps_agree st ∧
  RoomManager.leaveRoom st "socketA" 1700003950000 = (None, st).
Proof.
  cbv zeta.
  assert (RoomManager.users (RoomManager.run RoomManager.new Scenario.idle_hour)
            !! "socketA" = Some 0) as Hs by (vm_compute; reflexivity).
  assert (RoomManager.u_roomId <$>
            RoomManager.heap (RoomManager.run RoomManager.new Scenario.idle_hour)
              !! 0 = Some "r1") as Hh by (vm_compute; reflexivity).
  assert (RoomManager.rooms (RoomManager.run RoomManager.new Scenario.idle_hour)
            !! "r1" = None) as Hr by (vm_compute; reflexivity).
  split; [exact Hs|]. split; [exact Hh|]. split; [exact Hr|]. split.
  - intros [_ Hses]. destruct (Hses _ _ Hs) as (user & room & Hu & _ & Hroom & _).
    rewrite Hu in Hh. simpl in Hh. injection Hh as Hh.
    rewrite Hh, Hr in Hroom. discriminate.
  - eapply leaveRoom_roomless; vm_compute; reflexivity.
Qed.

(** A second [joinRoom] for a socket that already has a session replaces
    the session: the member created by the first join stays in the room,
    and its socket's session is another user object. *)
Lemma rejoin_breaks_agreement :
  let st := RoomManager.run RoomManager.new Scenario.joined_twice in
  RoomManager.members st "r1" = 2 ∧
  size (RoomManager.users st) = 1 ∧
  ¬ RoomManager.maps_agree st.
Proof.
  cbv zeta. split; [vm_compute; reflexivity|]. split; [vm_compute; reflexivity|].
  intros [Hmem _].
  assert (∃ room,
            RoomManager.rooms
              (RoomManager.run RoomManager.new Scenario.joined_twice) !! "r1"
              = Some room ∧
            RoomManager.r_users room !! "user_1700000000000_a1b2c3d4e" = Some 0)
    as (room & Hr & Hm) by (eexists; split; vm_compute; reflexivity).
  destruct (Hmem _ _ _ _ Hr Hm) as (user & Hu & _ & _ & Hs).
  vm_compute in Hu. injection Hu as <-. vm_compute in Hs. discriminate.
Qed.

(** * Further properties *)

(** ** VectorClock: increment, update, merge and the sort *)

Section ClockFacts.
Import VectorClock.
Implicit Types a b c : Clock.

Lemma update_lookup a b u :
  update a (Some b) !! u =
  match b !! u with
  | Some t => Some (Z.max (read a u) t)
  | None => a !! u
  end.
Proof.
  unfold update. revert u.
  apply (map_fold_weak_ind
           (fun acc (m : Clock) =>
              ∀ u, acc !! u = match m !! u with
                              | Some t => Some (Z.max (read a u) t)
                              | None => a !! u
                              end)).
  - intros u. by rewrite lookup_empty.
  - intros i x m acc Hi IH u. destruct (decide (i = u)) as [<-|Hne].
    + rewrite !lookup_insert_eq. unfold read at 1. by rewrite IH, Hi.
    + rewrite !lookup_insert_ne by done. apply IH.
Qed.

Lemma merge_snoc (clocks : list (option Clock)) (clock : option Clock) :
  merge (clocks ++ [clock]) = update (merge clocks) clock.
Proof. unfold merge. rewrite foldl_app. simpl. by destruct clock. Qed.

End ClockFacts.

(** X1. [increment(userId)] raises the component of [userId] by exactly one
    and leaves every other component as it was; the clock before the
    increment happens-before the clock after it. *)
Theorem increment_advances (c : VectorClock.Clock) (userId : string) :
  VectorClock.read (VectorClock.increment c userId) userId =
    (VectorClock.read c userId + 1)%Z ∧
  (∀ other, other ≠ userId →
     VectorClock.read (VectorClock.increment c userId) other =
       VectorClock.read c other) ∧
  VectorClock.compare (Some c) (Some (VectorClock.increment c userId)) = (-1)%Z.
Proof.
  assert (∀ v, VectorClock.read (VectorClock.increment c userId) v =
               if decide (userId = v) then (VectorClock.read c userId + 1)%Z
               else VectorClock.read c v) as Hread by apply increment_read.
  split; [rewrite Hread; by rewrite decide_True|].
  split; [intros other Hne; rewrite Hread; by rewrite decide_False|].
  apply compare_before_iff. split.
  - intros u. rewrite Hread. case_decide; [subst|]; lia.
  - exists userId. rewrite Hread, decide_True by done. lia.
Qed.

(** X2. [update(remoteClock)] never lowers a component, ends at or above
    every entry of the remote clock, keeps the keys the remote clock does
    not have, does nothing for a [null] clock, and is idempotent. *)
Theorem update_upper_bound (c remote : VectorClock.Clock) :
  let c' := VectorClock.update c (Some remote) in
  (∀ u, (VectorClock.read c u ≤ VectorClock.read c' u)%Z) ∧
  (∀ u t, remote !! u = Some t → (t ≤ VectorClock.read c' u)%Z) ∧
  (∀ u, remote !! u = None → c' !! u = c !! u) ∧
  VectorClock.update c None = c ∧
  VectorClock.update c' (Some remote) = c'.
Proof.
  cbv zeta. split; [|split; [|split; [|split]]].
  - intros u. rewrite update_read. destruct (remote !! u); lia.
  - intros u t Hu. rewrite update_read, Hu. lia.
  - intros u Hu. by rewrite update_lookup, Hu.
  - done.
  - apply map_eq. intros u. rewrite !update_lookup.
    destruct (remote !! u) as [t|] eqn:Hu; [|done].
    f_equal. rewrite update_read, Hu. lia.
Qed.

(** X3. [VectorClock.merge(...clocks)] skips [null] clocks and is an upper
    bound of the others that is attained: every entry of every clock is at
    most the merged component, and a merged component is either 0 or an
    entry of one of the clocks. *)
Theorem merge_is_maximum (clocks : list (option VectorClock.Clock)) (u : string) :
  (∀ c t, Some c ∈ clocks → c !! u = Some t →
          (t ≤ VectorClock.read (VectorClock.merge clocks) u)%Z) ∧
  (VectorClock.read (VectorClock.merge clocks) u = 0%Z ∨
   ∃ c, Some c ∈ clocks ∧
        c !! u = Some (VectorClock.read (VectorClock.merge clocks) u)) ∧
  VectorClock.merge (None :: clocks) = VectorClock.merge clocks ∧
  VectorClock.merge (clocks ++ [None]) = VectorClock.merge clocks.
Proof.
  split; [|split; [|split]].
  - induction clocks as [|clock clocks IH] using rev_ind;
      [by intros c t ?%elem_of_nil|].
    intros c t Hin Ht. rewrite merge_snoc.
    apply elem_of_app in Hin as [Hin|Hin].
    + specialize (IH c t Hin Ht). destruct clock as [r|]; [|done].
      rewrite update_read. destruct (r !! u); lia.
    + apply list_elem_of_singleton in Hin as <-.
      rewrite update_read, Ht. lia.
  - induction clocks as [|clock clocks IH] using rev_ind; [by left|].
    rewrite merge_snoc. destruct clock as [r|].
    + rewrite update_read. destruct (r !! u) as [t|] eqn:Hr.
      * destruct (Z.max_spec (VectorClock.read (VectorClock.merge clocks) u) t)
          as [[_ ->] | [_ ->]].
        -- right. exists r. split; [|done].
           apply elem_of_app. right. by apply list_elem_of_singleton.
        -- destruct IH as [IH | (c & Hin & Hc)]; [by left|].
           right. exists c. split; [|done]. apply elem_of_app. by left.
      * destruct IH as [IH | (c & Hin & Hc)]; [by left|].
        right. exists c. split; [|done]. apply elem_of_app. by left.
    + simpl. destruct IH as [IH | (c & Hin & Hc)]; [by left|].
      right. exists c. split; [|done]. apply elem_of_app. by left.
  - reflexivity.
  - by rewrite merge_snoc.
Qed.

(** X4. [sortEvents] returns the events it was given, each as often as it
    occurred; two neighbours of the result are in the comparator's order,
    so an event never stands immediately before one that happened before
    it; and sorting the result again changes nothing. *)
Theorem sortEvents_sorts (events : list OperationLog.Operation) :
  VectorClock.sortEvents events ≡ₚ events ∧
  (∀ pre a b post,
     VectorClock.sortEvents events = pre ++ a :: b :: post →
     (VectorClock.sortEvents_cmp a b ≤ 0)%Z ∧
     VectorClock.compare (OperationLog.op_vectorClock b)
                         (OperationLog.op_vectorClock a) ≠ (-1)%Z) ∧
  VectorClock.sortEvents (VectorClock.sortEvents events) =
    VectorClock.sortEvents events.
Proof.
  split; [apply array_sort_perm|]. split; [|apply sortEvents_idempotent].
  intros pre a b post Heq.
  pose proof (array_sort_sorted VectorClock.sortEvents_cmp
                sortEvents_cmp_antisym events) as Hsorted.
  fold (VectorClock.sortEvents events) in Hsorted. rewrite Heq in Hsorted.
  assert (VectorClock.sortEvents_cmp a b ≤ 0)%Z as Hab.
  { clear Heq. induction pre as [|x pre IH]; simpl in Hsorted.
    - apply Sorted_inv in Hsorted as [_ Hhd]. by inversion Hhd.
    - apply Sorted_inv in Hsorted as [Hsorted _]. by apply IH. }
  split; [exact Hab|].
  unfold VectorClock.sortEvents_cmp in Hab.
  change (VectorClock.vectorClock a) with (OperationLog.op_vectorClock a) in Hab.
  change (VectorClock.vectorClock b) with (OperationLog.op_vectorClock b) in Hab.
  destruct (OperationLog.op_vectorClock a) as [ca|],
           (OperationLog.op_vectorClock b) as [cb|]; try done.
  cbv zeta in Hab. rewrite (compare_antisym cb ca).
  destruct (compare_range ca cb) as [H|[H|H]]; rewrite H in *; simpl in Hab; lia.
Qed.

(** ** OperationLog: what a run of calls keeps *)

Section RunFacts.
Import OperationLog LogRun.

Lemma dominated_refl (c : VectorClock.Clock) : dominated c c.
Proof. intros u. lia. Qed.

Lemma dominated_trans (a b c : VectorClock.Clock) :
  dominated a b → dominated b c → dominated a c.
Proof. intros Hab Hbc u. specialize (Hab u). specialize (Hbc u). lia. Qed.

Lemma dominated_increment (c : VectorClock.Clock) (u : string) :
  dominated c (VectorClock.increment c u).
Proof. intros v. rewrite increment_read. case_decide; [subst|]; lia. Qed.

Lemma mutate_first_length (P : Operation → bool) (f : Operation → Operation)
    (ops : list Operation) :
  length (mutate_first P f ops) = length ops.
Proof.
  induction ops as [|op ops IH]; simpl; [done|].
  destruct (P op); simpl; [done|]. by rewrite IH.
Qed.

Lemma mutate_first_Forall (Q : Operation → Prop) (P : Operation → bool)
    (f : Operation → Operation) (ops : list Operation) :
  (∀ op, Q op → Q (f op)) → Forall Q ops → Forall Q (mutate_first P f ops).
Proof.
  intros Hf. induction 1 as [|op ops Hop Hops IH]; simpl; [constructor|].
  destruct (P op); constructor; auto.
Qed.

Lemma stamped_below_mono (c c' : VectorClock.Clock) (ops : list Operation) :
  dominated c c' → Forall (stamped_below c) ops → Forall (stamped_below c') ops.
Proof.
  intros Hcc Hall. eapply Forall_impl; [exact Hall|]. intros op (d & Hd & Hdc).
  exists d. split; [done|]. by eapply dominated_trans.
Qed.

Lemma addOperation_well_formed (log : t) (userId type : string) (data : Payload)
    (now : Z) (nonce : string) :
  well_formed log → well_formed (addOperation log userId type data now nonce).2.
Proof.
  intros (_ & Hstates & Hclocks).
  pose proof (addOperation_operations log userId type data now nonce) as H.
  cbv zeta in H. destruct H as (Hops & _ & _ & Hstate & _).
  pose proof (trimOperations_fields
                (mkLog (roomId log)
                   (operations log ++ [(addOperation log userId type data now nonce).1])
                   (VectorClock.increment (vectorClock log) userId)
                   (createdAt log))) as (_ & Hvc & _).
  split; [apply trimOperations_length|]. split.
  - rewrite Hops. apply Forall_app. split.
    + by apply Forall_drop.
    + constructor; [by left | constructor].
  - rewrite Hops. simpl in Hvc |- *. rewrite Hvc. simpl.
    apply Forall_app. split.
    + apply Forall_drop.
      eapply stamped_below_mono; [apply dominated_increment | exact Hclocks].
    + constructor; [|constructor]. eexists. split; [reflexivity|].
      apply dominated_refl.
Qed.

Lemma undoOperation_well_formed (log : t) (i u : string) (n : Z) :
  well_formed log → well_formed (undoOperation log i u n).2.
Proof.
  intros (Hlen & Hstates & Hclocks). unfold undoOperation.
  destruct (List.find _ _) as [op|]; [|done].
  destruct (negb _); [done|]. simpl.
  split; [simpl; by rewrite mutate_first_length|]. split; simpl.
  - apply mutate_first_Forall; [|done]. intros op' _. by right.
  - apply mutate_first_Forall; [|done]. by intros op' Hop'.
Qed.

Lemma redoOperation_well_formed (log : t) (i u : string) (n : Z) :
  well_formed log → well_formed (redoOperation log i u n).2.
Proof.
  intros (Hlen & Hstates & Hclocks). unfold redoOperation.
  destruct (List.find _ _) as [op|]; [|done].
  destruct (negb _); [done|]. simpl.
  split; [simpl; by rewrite mutate_first_length|]. split; simpl.
  - apply mutate_first_Forall; [|done]. intros op' _. by left.
  - apply mutate_first_Forall; [|done]. by intros op' Hop'.
Qed.

Lemma clearOperations_well_formed (log : t) (u : string) (n : Z) (nonce : string) :
  well_formed log → well_formed (clearOperations log u n nonce).2.
Proof.
  intros Hwf. unfold clearOperations.
  pose proof (addOperation_well_formed log u TYPES_CLEAR
                (ClearInfo (length (getActiveOperations log)) n) n nonce Hwf)
    as (Hlen & Hstates & Hclocks).
  destruct (addOperation _ _ _ _ _ _) as [clearOp log1]. simpl in *.
  split; [simpl; by rewrite length_map|]. split; simpl.
  - apply Forall_fmap. eapply Forall_impl; [exact Hstates|].
    intros op Hop. simpl. unfold clear_flip.
    destruct (_ && _); [by right | done].
  - apply Forall_fmap. eapply Forall_impl; [exact Hclocks|].
    intros op Hop. simpl. unfold clear_flip. by destruct (_ && _).
Qed.

Lemma step_well_formed (log : t) (c : Call) :
  well_formed log → well_formed (step log c).
Proof.
  destruct c; simpl.
  - apply addOperation_well_formed.
  - apply undoOperation_well_formed.
  - apply redoOperation_well_formed.
  - apply clearOperations_well_formed.
Qed.

Lemma run_well_formed (calls : list Call) (log : t) :
  well_formed log → well_formed (run log calls).
Proof.
  revert log. induction calls as [|c calls IH]; intros log Hwf; [done|].
  simpl. apply IH. by apply step_well_formed.
Qed.

Lemma new_well_formed (room : string) (created : Z) :
  well_formed (new room created).
Proof. split; [simpl; lia|]. split; constructor. Qed.

Lemma step_clock_grows (log : t) (c : Call) :
  dominated (vectorClock log) (vectorClock (step log c)).
Proof.
  assert (∀ u ty d n nonce,
            dominated (vectorClock log)
                      (vectorClock (addOperation log u ty d n nonce).2)) as Hadd.
  { intros u ty d n nonce. unfold addOperation. simpl.
    pose proof (trimOperations_fields
                  (mkLog (roomId log)
                     (operations log ++ [(addOperation log u ty d n nonce).1])
                     (VectorClock.increment (vectorClock log) u)
                     (createdAt log))) as (_ & Hvc & _).
    simpl in Hvc. unfold addOperation in Hvc. simpl in Hvc. rewrite Hvc.
    apply dominated_increment. }
  destruct c as [u ty d n nonce | i u n | i u n | u n nonce]; unfold step.
  - apply Hadd.
  - unfold undoOperation. destruct (List.find _ _); [|apply dominated_refl].
    destruct (negb _); apply dominated_refl.
  - unfold redoOperation. destruct (List.find _ _); [|apply dominated_refl].
    destruct (negb _); apply dominated_refl.
  - unfold clearOperations.
    specialize (Hadd u TYPES_CLEAR
                  (ClearInfo (length (getActiveOperations log)) n) n nonce).
    destruct (addOperation _ _ _ _ _ _). simpl in *. exact Hadd.
Qed.

Lemma run_clock_grows (calls : list Call) (log : t) :
  dominated (vectorClock log) (vectorClock (run log calls)).
Proof.
  revert log. induction calls as [|c calls IH]; intros log;
    [apply dominated_refl|].
  simpl. eapply dominated_trans; [apply step_clock_grows | apply IH].
Qed.

Lemma two_states_count (ops : list Operation) :
  Forall two_states ops →
  length ops =
    length (List.filter is_active ops) + length (List.filter is_undone ops).
Proof.
  induction 1 as [|op ops Hop _ IH]; simpl; [done|].
  unfold is_active at 1, is_undone at 1.
  destruct Hop as [Hs|Hs]; rewrite Hs; simpl; lia.
Qed.

End RunFacts.

(** X5. In a log reached from a new log by [addOperation], [undoOperation],
    [redoOperation] and [clearOperations] calls, the operation that
    [addOperation] returns is stamped with the log's clock after the
    increment, and every entry already in the log happens-before it. *)
Theorem addOperation_happens_after (room : string) (created : Z)
    (calls : list LogRun.Call) (userId type : string)
    (data : OperationLog.Payload) (now : Z) (nonce : string) :
  let log := LogRun.run (OperationLog.new room created) calls in
  let result := OperationLog.addOperation log userId type data now nonce in
  OperationLog.op_vectorClock result.1 =
    Some (OperationLog.vectorClock result.2) ∧
  ∀ old, old ∈ OperationLog.operations log →
    VectorClock.compare (OperationLog.op_vectorClock old)
                        (OperationLog.op_vectorClock result.1) = (-1)%Z.
Proof.
  cbv zeta. set (log := LogRun.run _ calls).
  assert (LogRun.well_formed log) as (_ & _ & Hclocks)
    by apply run_well_formed, new_well_formed.
  pose proof (trimOperations_fields
                (OperationLog.mkLog (OperationLog.roomId log)
                   (OperationLog.operations log ++
                      [(OperationLog.addOperation log userId type data now nonce).1])
                   (VectorClock.increment (OperationLog.vectorClock log) userId)
                   (OperationLog.createdAt log))) as (_ & Hvc & _).
  split.
  - simpl in *. by rewrite Hvc.
  - intros old Hold. simpl.
    rewrite Forall_forall in Hclocks.
    destruct (Hclocks old Hold) as (d & -> & Hd).
    unfold VectorClock.getClock. apply compare_before_iff. split.
    + intros u. eapply dominated_trans; [exact Hd | apply dominated_increment].
    + exists userId. specialize (Hd userId).
      rewrite increment_read, decide_True by done. lia.
Qed.

(** X6. Every log reached from a new log by [addOperation], [undoOperation],
    [redoOperation] and [clearOperations] calls has at most [maxOperations]
    entries, each in state ['active'] or ['undone'] and stamped with a
    clock below the log's; [getStats] then reports
    [total = active + undone]; and further calls never lower a component
    of the log's clock. *)
Theorem run_keeps_log_shape (room : string) (created : Z)
    (calls more : list LogRun.Call) (now : Z) :
  let log := LogRun.run (OperationLog.new room created) calls in
  LogRun.well_formed log ∧
  OperationLog.st_total (OperationLog.getStats log now) =
    OperationLog.st_active (OperationLog.getStats log now) +
    OperationLog.st_undone (OperationLog.getStats log now) ∧
  LogRun.dominated (OperationLog.vectorClock log)
                   (OperationLog.vectorClock (LogRun.run log more)).
Proof.
  cbv zeta. set (log := LogRun.run _ calls).
  assert (LogRun.well_formed log) as Hwf
    by apply run_well_formed, new_well_formed.
  split; [exact Hwf|]. split; [|apply run_clock_grows].
  destruct Hwf as (_ & Hstates & _). simpl.
  by apply two_states_count.
Qed.

(** ** OperationLog: undo and redo without an id *)

Section LastOperation.
Import OperationLog.

Lemma find_last_split (P : Operation → bool) (ops : list Operation) (op : Operation) :
  List.find P (rev ops) = Some op →
  ∃ pre post, ops = pre ++ op :: post ∧ P op = true ∧
              Forall (fun o => P o = false) post.
Proof.
  intros Hf. destruct (find_split _ _ _ Hf) as (pre & post & Heq & HP & Hpre).
  exists (rev post), (rev pre). split; [|split; [done|]].
  - rewrite <- (rev_involutive ops), Heq, rev_app_distr. simpl.
    by rewrite <- app_assoc.
  - by apply Forall_rev.
Qed.

Lemma filter_all_false (P : Operation → bool) (ops : list Operation) :
  Forall (fun o => P o = false) ops → List.filter P ops = [].
Proof.
  induction 1 as [|op ops Hop _ IH]; simpl; [done|]. by rewrite Hop.
Qed.

Lemma NoDup_ids_before (pre post : list Operation) (op : Operation) :
  NoDup (map op_id (pre ++ op :: post)) →
  Forall (fun o => op_id o ≠ op_id op) pre.
Proof.
  rewrite map_app. simpl. intros Hnd.
  apply NoDup_app in Hnd as (_ & Hdisj & _).
  apply Forall_forall. intros o Ho Heq.
  apply (Hdisj (op_id o)); [by apply list_elem_of_fmap_2|].
  rewrite Heq. by left.
Qed.

Lemma filter_at (P : Operation → bool) (pre post : list Operation) (op : Operation) :
  Forall (fun o => P o = false) post →
  List.filter P (pre ++ op :: post) =
  List.filter P pre ++ (if P op then [op] else []).
Proof.
  intros Hpost. rewrite List.filter_app. simpl.
  rewrite (filter_all_false _ post Hpost). by destruct (P op).
Qed.

Lemma is_active_undone (u : string) (n : Z) (op : Operation) :
  is_active (mark_undone u n op) = false.
Proof. reflexivity. Qed.

Lemma is_active_redone (u : string) (n : Z) (op : Operation) :
  is_active (mark_redone u n op) = true.
Proof. reflexivity. Qed.

End LastOperation.

Section LastActive.
Import OperationLog.

Lemma undoOperation_last_active (log : t) (op : Operation) (userId : string)
    (now : Z) :
  NoDup (map op_id (operations log)) →
  getLastActiveOperation log = Some op →
  undoOperation log (op_id op) userId now =
    (Success (mark_undone userId now op),
     (undoOperation log (op_id op) userId now).2) ∧
  last (getActiveOperations log) = Some op ∧
  getActiveOperations (undoOperation log (op_id op) userId now).2 =
    removelast (getActiveOperations log).
Proof.
  intros Hnd Hlast.
  destruct (find_last_split _ _ _ Hlast) as (pre & post & Hops & Hact & Hpost).
  rewrite Hops in Hnd.
  pose proof (NoDup_ids_before pre post op Hnd) as Hpre.
  unfold is_active in Hact. apply bool_decide_eq_true in Hact.
  rewrite (undoOperation_at log _ userId now pre post op Hops Hpre eq_refl Hact).
  simpl. unfold getActiveOperations. simpl. rewrite Hops.
  rewrite !(filter_at _ pre post) by done.
  rewrite is_active_undone.
  replace (is_active op) with true
    by (unfold is_active; by rewrite bool_decide_eq_true_2).
  split; [done|]. split; [apply last_snoc|].
  by rewrite app_nil_r, removelast_last.
Qed.

End LastActive.

(** X7. In a log whose ids are pairwise distinct, undoing the operation
    that [getLastActiveOperation] returns succeeds, and the active
    operations are then the former ones without the last. *)
Theorem undo_last_active (log : OperationLog.t) (op : OperationLog.Operation)
    (userId : string) (now : Z) :
  NoDup (map OperationLog.op_id (OperationLog.operations log)) →
  OperationLog.getLastActiveOperation log = Some op →
  let result :=
    OperationLog.undoOperation log (OperationLog.op_id op) userId now in
  result.1 = OperationLog.Success (OperationLog.mark_undone userId now op) ∧
  last (OperationLog.getActiveOperations log) = Some op ∧
  OperationLog.getActiveOperations result.2 =
    removelast (OperationLog.getActiveOperations log).
Proof.
  intros Hnd Hlast. cbv zeta.
  destruct (undoOperation_last_active log op userId now Hnd Hlast)
    as (Hundo & Hlast' & Hactive).
  rewrite Hundo at 1. by repeat split.
Qed.

(** A run of X7: carol undoes without an id after alice's and bob's
    strokes, which undoes bob's. *)
Lemma undo_last_active_witness :
  OperationLog.getActiveOperations
    (OperationLog.undoOperation Scenario.log2
       "bob_1700000000200_q7w2e5r8t" "carol" 1700000000300).2 =
  removelast (OperationLog.getActiveOperations Scenario.log2).
Proof.
  refine (proj2 (proj2
    (undo_last_active Scenario.log2 Cases.op_bob "carol" 1700000000300 _ _))).
  - refine (bool_decide_unpack _ _). vm_compute. exact I.
  - vm_compute. reflexivity.
Defined.

Section LastUndone.
Import OperationLog.

Lemma redoOperation_last_undone (log : t) (op : Operation) (userId : string)
    (now : Z) :
  NoDup (map op_id (operations log)) →
  getLastUndoneOperation log = Some op →
  redoOperation log (op_id op) userId now =
    (Success (mark_redone userId now op),
     (redoOperation log (op_id op) userId now).2) ∧
  (∃ pre post,
     operations log = pre ++ op :: post ∧
     operations (redoOperation log (op_id op) userId now).2 =
       pre ++ mark_redone userId now op :: post) ∧
  getActiveOperations (redoOperation log (op_id op) userId now).2 ≡ₚ
    mark_redone userId now op :: getActiveOperations log.
Proof.
  intros Hnd Hlast.
  destruct (find_last_split _ _ _ Hlast) as (pre & post & Hops & Hund & Hpost).
  rewrite Hops in Hnd.
  pose proof (NoDup_ids_before pre post op Hnd) as Hpre.
  unfold is_undone in Hund. apply bool_decide_eq_true in Hund.
  rewrite (redoOperation_at log _ userId now pre post op Hops Hpre eq_refl Hund).
  simpl. split; [done|]. split; [by exists pre, post|].
  unfold getActiveOperations. simpl. rewrite Hops.
  rewrite !List.filter_app. cbn [List.filter]. rewrite is_active_redone.
  replace (is_active op) with false by (unfold is_active; by rewrite Hund).
  by rewrite <- Permutation_middle.
Qed.

End LastUndone.

(** X8. In a log whose ids are pairwise distinct, redoing the operation
    that [getLastUndoneOperation] returns succeeds; only that entry
    changes, and the active operations are the former ones and it. *)
Theorem redo_last_undone (log : OperationLog.t) (op : OperationLog.Operation)
    (userId : string) (now : Z) :
  NoDup (map OperationLog.op_id (OperationLog.operations log)) →
  OperationLog.getLastUndoneOperation log = Some op →
  let result :=
    OperationLog.redoOperation log (OperationLog.op_id op) userId now in
  result.1 = OperationLog.Success (OperationLog.mark_redone userId now op) ∧
  (∃ pre post,
     OperationLog.operations log = pre ++ op :: post ∧
     OperationLog.operations result.2 =
       pre ++ OperationLog.mark_redone userId now op :: post) ∧
  OperationLog.getActiveOperations result.2 ≡ₚ
    OperationLog.mark_redone userId now op ::
      OperationLog.getActiveOperations log.
Proof.
  intros Hnd Hlast. cbv zeta.
  destruct (redoOperation_last_undone log op userId now Hnd Hlast)
    as (Hredo & Hops & Hactive).
  rewrite Hredo at 1. by repeat split.
Qed.

(** A run of X8: dave redoes without an id after carol's undo. *)
Lemma redo_last_undone_witness :
  (OperationLog.redoOperation Cases.log2_undone
     "bob_1700000000200_q7w2e5r8t" "dave" 1700000000400).1 =
  OperationLog.Success
    (OperationLog.mark_redone "dave" 1700000000400 Cases.op_bob_undone).
Proof.
  refine (proj1
    (redo_last_undone Cases.log2_undone Cases.op_bob_undone "dave"
       1700000000400 _ _)).
  - refine (bool_decide_unpack _ _). vm_compute. exact I.
  - vm_compute. reflexivity.
Defined.

(** ** OperationLog: a stroke and its undo, a clear and the rebuilt state *)

Section AddUndoClear.
Import OperationLog.

Lemma fresh_in_kept (log : t) (i : string) (k : nat) :
  i ∉ map op_id (operations log) →
  Forall (fun o => op_id o ≠ i) (drop k (operations log)).
Proof.
  intros Hfresh. apply Forall_forall. intros o Ho Heq. apply Hfresh.
  rewrite <- Heq. apply list_elem_of_fmap_2. by eapply subseteq_drop.
Qed.

(** The active operations right after a clear, derived from the shape of
    the log after the push and the flips. *)
Lemma clearOperations_active (log : t) (u : string) (n : Z) (nonce : string) :
  generateOperationId u n nonce ∉ map op_id (operations log) →
  getActiveOperations (clearOperations log u n nonce).2 =
    [(clearOperations log u n nonce).1] ∧
  op_type (clearOperations log u n nonce).1 = TYPES_CLEAR.
Proof.
  intros Hfresh. unfold clearOperations.
  set (data := ClearInfo _ _).
  pose proof (addOperation_operations log u TYPES_CLEAR data n nonce) as Hadd.
  cbv zeta in Hadd.
  destruct (addOperation log u TYPES_CLEAR data n nonce) as [clearOp log1].
  simpl in Hadd. destruct Hadd as (Hops & Hid & Hty & Hst & _). simpl.
  split; [|done].
  unfold getActiveOperations. simpl. rewrite Hops, map_app.
  rewrite clear_flip_others.
  - rewrite List.filter_app, flip_active_inactive. simpl.
    unfold clear_flip. rewrite bool_decide_eq_true_2 by done. simpl.
    unfold is_active. by rewrite bool_decide_eq_true_2.
  - rewrite Hid. intros Hin. apply Hfresh.
    apply list_elem_of_fmap in Hin as (o & -> & Ho).
    apply list_elem_of_fmap_2. by eapply subseteq_drop.
Qed.

End AddUndoClear.

(** X9. A stroke followed by an undo without an id: when the generated id
    is not yet in the log, the appended operation is the one
    [getLastActiveOperation] returns, undoing it succeeds, and the active
    operations are then those of the entries the trim kept; below the cap
    they are the active operations from before the stroke. *)
Theorem add_then_undo_restores (log : OperationLog.t) (userId type : string)
    (data : OperationLog.Payload) (now : Z) (nonce undoer : string) (later : Z) :
  OperationLog.generateOperationId userId now nonce
    ∉ map OperationLog.op_id (OperationLog.operations log) →
  let added := OperationLog.addOperation log userId type data now nonce in
  let undone :=
    OperationLog.undoOperation added.2 (OperationLog.op_id added.1) undoer later in
  OperationLog.getLastActiveOperation added.2 = Some added.1 ∧
  undone.1 = OperationLog.Success
               (OperationLog.mark_undone undoer later added.1) ∧
  OperationLog.getActiveOperations undone.2 =
    List.filter OperationLog.is_active
      (drop (length (OperationLog.operations log) + 1 - OperationLog.maxOperations)
            (OperationLog.operations log)) ∧
  (length (OperationLog.operations log) < OperationLog.maxOperations →
   OperationLog.getActiveOperations undone.2 =
     OperationLog.getActiveOperations log).
Proof.
  intros Hfresh. cbv zeta.
  pose proof (addOperation_operations log userId type data now nonce) as Hadd.
  cbv zeta in Hadd.
  destruct (OperationLog.addOperation log userId type data now nonce)
    as [op log1].
  simpl in Hadd. destruct Hadd as (Hops & Hid & _ & Hst & _). simpl.
  set (kept := drop _ (OperationLog.operations log)) in *.
  assert (Forall (fun o => OperationLog.op_id o ≠ OperationLog.op_id op) kept)
    as Hkept by (rewrite Hid; by apply fresh_in_kept).
  assert (OperationLog.getLastActiveOperation log1 = Some op) as Hlast.
  { unfold OperationLog.getLastActiveOperation. rewrite Hops, rev_app_distr.
    simpl. unfold OperationLog.is_active. by rewrite bool_decide_eq_true_2. }
  split; [exact Hlast|].
  rewrite (undoOperation_at log1 _ undoer later kept [] op Hops Hkept eq_refl Hst).
  simpl. split; [done|].
  assert (OperationLog.getActiveOperations
            (OperationLog.with_operations log1
               (kept ++ [OperationLog.mark_undone undoer later op]))
          = List.filter OperationLog.is_active kept) as Hact.
  { unfold OperationLog.getActiveOperations. simpl.
    rewrite List.filter_app. cbn [List.filter].
    rewrite is_active_undone. by rewrite app_nil_r. }
  split; [exact Hact|]. intros Hlt. rewrite Hact. unfold kept.
  replace (length (OperationLog.operations log) + 1 - OperationLog.maxOperations)
    with 0 by lia.
  done.
Qed.

(** A run of X9: carol draws after alice and bob, and dave undoes. *)
Lemma add_then_undo_restores_witness :
  let added :=
    OperationLog.addOperation Scenario.log2 "carol" "stroke"
      (OperationLog.Stroke "s3") 1700000000300 "z1y2x3w4v" in
  OperationLog.getActiveOperations
    (OperationLog.undoOperation added.2 (OperationLog.op_id added.1)
       "dave" 1700000000400).2 =
  OperationLog.getActiveOperations Scenario.log2.
Proof.
  refine (proj2 (proj2 (proj2
    (add_then_undo_restores Scenario.log2 "carol" "stroke"
       (OperationLog.Stroke "s3") 1700000000300 "z1y2x3w4v" "dave"
       1700000000400 _))) _).
  - refine (bool_decide_unpack _ _). vm_compute. exact I.
  - vm_compute. lia.
Defined.

(** X10. After [clearOperations], the generated id not being in the log
    before, [rebuildState] reports no stroke and one active operation, the
    clear itself. *)
Theorem clear_blanks_rebuilt_state (log : OperationLog.t) (userId : string)
    (now : Z) (nonce : string) :
  OperationLog.generateOperationId userId now nonce
    ∉ map OperationLog.op_id (OperationLog.operations log) →
  OperationLog.rebuildState
    (OperationLog.clearOperations log userId now nonce).2 = ([], 1).
Proof.
  intros Hfresh.
  destruct (clearOperations_active log userId now nonce Hfresh) as [Hact Hty].
  unfold OperationLog.rebuildState. rewrite Hact. cbn [List.filter].
  by rewrite Hty.
Qed.

(** A run of X10: carol clears the room of alice's and bob's strokes. *)
Lemma clear_blanks_rebuilt_state_witness :
  OperationLog.rebuildState Scenario.log2 =
    ([OperationLog.Stroke "s1"; OperationLog.Stroke "s2"], 2) ∧
  OperationLog.rebuildState
    (OperationLog.clearOperations Scenario.log2 "carol" 1700000000300
                                  "z1y2x3w4v").2 = ([], 1).
Proof.
  split; [vm_compute; reflexivity|].
  apply (clear_blanks_rebuilt_state Scenario.log2 "carol" 1700000000300
           "z1y2x3w4v").
  refine (bool_decide_unpack _ _). vm_compute. exact I.
Defined.

(** ** OperationLog.mergeOperations: what a merge adds *)

Section MergeFacts.
Import OperationLog.

(** The clock after the loop over the new operations is above the clock
    before it and above every entry of the clocks of the new operations. *)
Lemma merge_clock_bounds (newOps : list Operation) (c : VectorClock.Clock) :
  let c' := foldl (fun clock op =>
                     match op_vectorClock op with
                     | Some remote => VectorClock.update clock (Some remote)
                     | None => clock
                     end) c newOps in
  LogRun.dominated c c' ∧
  ∀ op r u t, op ∈ newOps → op_vectorClock op = Some r → r !! u = Some t →
              (t ≤ VectorClock.read c' u)%Z.
Proof.
  revert c. induction newOps as [|op newOps IH]; intros c; cbn [foldl].
  - split; [apply dominated_refl|]. by intros op r u t ?%elem_of_nil.
  - destruct (op_vectorClock op) as [r0|] eqn:Hop.
    + destruct (IH (VectorClock.update c (Some r0))) as [Hdom Hnew]. split.
      * eapply dominated_trans; [|exact Hdom].
        intros u. rewrite update_read. destruct (r0 !! u); lia.
      * intros op' r u t [Heq|Hin]%elem_of_cons Hr Ht; [|by eapply Hnew].
        subst op'. assert (r = r0) as -> by congruence.
        specialize (Hdom u). rewrite update_read, Ht in Hdom. lia.
    + destruct (IH c) as [Hdom Hnew]. split; [done|].
      intros op' r u t [Heq|Hin]%elem_of_cons Hr Ht; [|by eapply Hnew].
      subst op'. congruence.
Qed.

End MergeFacts.

(** X11. [mergeOperations(externalOperations)] adds the external
    operations whose id is not in the log and counts them in [merged];
    [total] is the length of the log afterwards, at most [maxOperations];
    the log is then the sorted sequence of the old and the new operations
    or, after a trim, its tail; no component of the log's clock decreases,
    and the clock ends at or above every entry of the clocks of the new
    operations. *)
Theorem mergeOperations_adds_new (log : OperationLog.t)
    (externalOperations : list OperationLog.Operation) :
  let result := OperationLog.mergeOperations log externalOperations in
  let newOps :=
    List.filter
      (fun op => negb (bool_decide
         (OperationLog.op_id op ∈
            map OperationLog.op_id (OperationLog.operations log))))
      externalOperations in
  OperationLog.merged result.1 = length newOps ∧
  OperationLog.total result.1 = length (OperationLog.operations result.2) ∧
  length (OperationLog.operations result.2) ≤ OperationLog.maxOperations ∧
  OperationLog.operations result.2 `suffix_of`
    VectorClock.sortEvents (OperationLog.operations log ++ newOps) ∧
  (length (OperationLog.operations log) + length newOps
     ≤ OperationLog.maxOperations →
   OperationLog.operations result.2 ≡ₚ OperationLog.operations log ++ newOps) ∧
  LogRun.dominated (OperationLog.vectorClock log)
                   (OperationLog.vectorClock result.2) ∧
  (∀ op r u t, op ∈ newOps → OperationLog.op_vectorClock op = Some r →
               r !! u = Some t →
               (t ≤ VectorClock.read (OperationLog.vectorClock result.2) u)%Z).
Proof.
  cbv zeta.
  destruct (merge_unfold log externalOperations)
    as (newOps & clock & <- & Hclock & ->).
  cbv zeta. simpl.
  set (sorted := VectorClock.sortEvents (OperationLog.operations log ++ newOps)).
  set (log1 := OperationLog.mkLog _ sorted clock _).
  destruct (trimOperations_fields log1) as (_ & Hvc & _).
  pose proof (merge_clock_bounds newOps (OperationLog.vectorClock log)) as Hb.
  cbv zeta in Hb. rewrite <- Hclock in Hb. destruct Hb as [Hdom Hnew].
  split; [done|]. split; [done|].
  split; [apply trimOperations_length|].
  split; [rewrite trimOperations_operations; apply suffix_drop|].
  split; [|by rewrite Hvc].
  intros Hfit. rewrite trimOperations_id.
  - apply array_sort_perm.
  - simpl. unfold sorted, VectorClock.sortEvents.
    rewrite array_sort_length, length_app. lia.
Qed.

(** X12. [mergeOperations] compares the external operations with the ids
    in the log only: an operation whose id is new and that occurs twice in
    [externalOperations] is merged twice, and unless the log is trimmed
    its ids are then no longer pairwise distinct. *)
Theorem mergeOperations_keeps_batch_duplicates (log : OperationLog.t)
    (op : OperationLog.Operation) :
  OperationLog.op_id op
    ∉ map OperationLog.op_id (OperationLog.operations log) →
  let result := OperationLog.mergeOperations log [op; op] in
  OperationLog.merged result.1 = 2 ∧
  (length (OperationLog.operations log) + 2 ≤ OperationLog.maxOperations →
   ¬ NoDup (map OperationLog.op_id (OperationLog.operations result.2))).
Proof.
  intros Hnew. cbv zeta.
  destruct (merge_unfold log [op; op]) as (newOps & clock & HnewOps & _ & ->).
  simpl in HnewOps. rewrite (bool_decide_eq_false_2 _ Hnew) in HnewOps.
  simpl in HnewOps. subst newOps. cbv zeta. simpl.
  split; [done|]. intros Hfit Hnd.
  rewrite trimOperations_id in Hnd.
  - simpl in Hnd. unfold VectorClock.sortEvents in Hnd.
    rewrite array_sort_perm, map_app in Hnd. simpl in Hnd.
    apply NoDup_app in Hnd as (_ & _ & Hnd).
    apply NoDup_cons in Hnd as [Hnotin _]. apply Hnotin. by left.
  - simpl. unfold VectorClock.sortEvents.
    rewrite array_sort_length, length_app. simpl. lia.
Qed.

(** A run of X12: the same remote operation is offered twice in one
    batch. *)
Lemma mergeOperations_keeps_batch_duplicates_witness :
  OperationLog.merged
    (OperationLog.mergeOperations Scenario.log2
       [Scenario.op_unclocked; Scenario.op_unclocked]).1 = 2.
Proof.
  refine (proj1
    (mergeOperations_keeps_batch_duplicates Scenario.log2 Scenario.op_unclocked _)).
  refine (bool_decide_unpack _ _). vm_compute. exact I.
Defined.

(** ** RoomManager: capacity, colors, cleanup and broadcast *)

Section ManagerFacts.
Import RoomManager.

Lemma foldl_deleteRoom_lookup (l : list string) (st : t) (k : string) :
  rooms (foldl deleteRoom st l) !! k =
    (if decide (k ∈ l) then None else rooms st !! k) ∧
  users (foldl deleteRoom st l) = users st ∧
  heap (foldl deleteRoom st l) = heap st ∧
  timers (foldl deleteRoom st l) = timers st.
Proof.
  revert st. induction l as [|roomId l IH]; intros st; cbn [foldl].
  - split; [|done]. case_decide as Hin; [by apply elem_of_nil in Hin | done].
  - destruct (IH (deleteRoom st roomId)) as (Hr & Hu & Hh & Ht).
    assert (users (deleteRoom st roomId) = users st ∧
            heap (deleteRoom st roomId) = heap st ∧
            timers (deleteRoom st roomId) = timers st ∧
            rooms (deleteRoom st roomId) !! k =
              if decide (k = roomId) then None else rooms st !! k)
      as (Hu' & Hh' & Ht' & Hr').
    { unfold deleteRoom. destruct (rooms st !! roomId) eqn:Hroom; simpl.
      - repeat split. destruct (decide (k = roomId)) as [->|Hk].
        + apply lookup_delete_eq.
        + by rewrite lookup_delete_ne.
      - repeat split. by destruct (decide (k = roomId)) as [->|Hk]. }
    rewrite Hr, Hu, Hh, Ht, Hr'. repeat split; try done.
    destruct (decide (k ∈ l)) as [Hin|Hnotin],
             (decide (k = roomId)) as [Heq|Hne],
             (decide (k ∈ roomId :: l)) as [Hin'|Hnotin']; try done.
    + exfalso. apply Hnotin'. by right.
    + exfalso. apply Hnotin'. by right.
    + exfalso. apply Hnotin'. subst. by left.
    + exfalso. apply elem_of_cons in Hin' as [?|?]; done.
Qed.

Lemma cleanupTick_lookup (st : t) (now : Z) (roomId : string) :
  rooms (cleanupTick st now) !! roomId =
    match rooms st !! roomId with
    | Some room => if reaped room now then None else Some room
    | None => None
    end.
Proof.
  unfold cleanupTick.
  destruct (foldl_deleteRoom_lookup
              (map fst (List.filter (fun kv => reaped kv.2 now)
                          (map_to_list (rooms st)))) st roomId) as [-> _].
  destruct (rooms st !! roomId) as [room|] eqn:Hroom.
  - destruct (reaped room now) eqn:Hreaped.
    + rewrite decide_True; [done|].
      apply list_elem_of_fmap. exists (roomId, room). split; [done|].
      apply list_elem_of_In, List.filter_In. split; [|done].
      by apply list_elem_of_In, elem_of_map_to_list.
    + rewrite decide_False; [done|].
      intros ([k room'] & -> & Hin)%list_elem_of_fmap.
      apply list_elem_of_In, List.filter_In in Hin as [Hin Hr].
      apply list_elem_of_In, elem_of_map_to_list in Hin. simpl in *.
      congruence.
  - case_decide as Hin; [|done].
    apply list_elem_of_fmap in Hin as ([k room'] & -> & Hin).
    apply list_elem_of_In, List.filter_In in Hin as [Hin _].
    apply list_elem_of_In, elem_of_map_to_list in Hin. simpl in *. congruence.
Qed.

Lemma joinRoom_capacity_kept (st : t) (socketId roomId : string)
    (username : option string) (now : Z) (rnd : Random) :
  within_capacity st →
  within_capacity (joinRoom st socketId roomId username now rnd).2.
Proof.
  intros Hcap.
  destruct (decide (members st roomId < maxUsersPerRoom)) as [Hlt|Hge];
    [|by rewrite joinRoom_full by lia].
  destruct (joinRoom_admitted st socketId roomId username now rnd Hlt)
    as (user & info & room & -> & Hroom & _).
  pose proof (getRoom_spec st roomId now) as Hspec. cbv zeta in Hspec.
  rewrite <- Hroom in Hspec. destruct Hspec as (_ & _ & _ & _ & Hsize & _).
  intros roomId' room' Hr. simpl in Hr.
  apply lookup_insert_Some in Hr as [[_ <-] | [_ Hr]]; [|by eapply Hcap].
  simpl. rewrite map_size_insert, Hsize.
  destruct (_ !! _); unfold id; lia.
Qed.

Lemma leaveRoom_capacity_kept (st : t) (socketId : string) (now : Z) :
  within_capacity st → within_capacity (leaveRoom st socketId now).2.
Proof.
  intros Hcap. unfold leaveRoom.
  destruct (getUser st socketId) as [user|]; [|done].
  destruct (rooms st !! u_roomId user) as [room|] eqn:Hroom; [|done].
  simpl.
  assert (∀ st0 : t,
            rooms st0 = <[u_roomId user :=
                          mkRoom (r_id room) (delete (u_id user) (r_users room))
                            (r_operationLog room) (r_createdAt room)
                            (r_lastActivity room)]> (rooms st) →
            within_capacity st0) as Hst0.
  { intros st0 Heq roomId' room' Hr. rewrite Heq in Hr.
    apply lookup_insert_Some in Hr as [[_ <-] | [_ Hr]]; [|by eapply Hcap].
    simpl. rewrite map_size_delete. specialize (Hcap _ _ Hroom).
    destruct (r_users room !! u_id user); unfold id; [|done].
    etrans; [apply Nat.le_pred_l | done]. }
  destruct (bool_decide _); by apply Hst0.
Qed.

Lemma updateActivity_capacity_kept (st : t) (socketId : string) (now : Z) :
  within_capacity st → within_capacity (updateActivity st socketId now).
Proof.
  intros Hcap. unfold updateActivity.
  destruct (users st !! socketId) as [address|]; [|done].
  destruct (heap st !! address) as [user|]; [|done].
  intros roomId room Hr. simpl in Hr.
  apply lookup_alter_Some in Hr as [(_ & room0 & Hr0 & ->) | [_ Hr0]].
  - simpl. by apply (Hcap _ _ Hr0).
  - by apply (Hcap _ _ Hr0).
Qed.

Lemma deleteRoom_capacity_kept (st : t) (roomId : string) :
  within_capacity st → within_capacity (deleteRoom st roomId).
Proof.
  intros Hcap roomId' room Hr. apply deleteRoom_lookup in Hr. by eapply Hcap.
Qed.

Lemma run_op_capacity_kept (st : t) (o : Op) :
  within_capacity st → within_capacity (run_op st o).
Proof.
  intros Hcap. destruct o as [s r name n rnd | s n | s n | i n | n]; simpl.
  - by apply joinRoom_capacity_kept.
  - by apply leaveRoom_capacity_kept.
  - by apply updateActivity_capacity_kept.
  - unfold fireTimer. destruct (timers st !! i) as [[roomId due]|]; [|done].
    destruct (_ <=? _)%Z; [|done]. unfold roomCleanupCallback. simpl.
    destruct (rooms st !! roomId) as [room|] eqn:Hroom; [|done].
    destruct (bool_decide _); [|done]. destruct (_ >? _)%Z; [|done].
    intros roomId' room' Hr. apply deleteRoom_lookup in Hr. by eapply Hcap.
  - intros roomId room Hr. rewrite cleanupTick_lookup in Hr.
    destruct (rooms st !! roomId) as [room0|] eqn:Hroom; [|done].
    destruct (reaped room0 n); [done|]. injection Hr as <-. by eapply Hcap.
Qed.

Lemma run_capacity_kept (ops : list Op) (st : t) :
  within_capacity st → within_capacity (run st ops).
Proof.
  revert st. induction ops as [|o ops IH]; intros st Hcap; [done|].
  simpl. apply IH. by apply run_op_capacity_kept.
Qed.

Lemma room_members_length (st : t) (room : Room) :
  length (room_members st room) ≤ size (r_users room).
Proof.
  unfold room_members. rewrite <- length_map_to_list.
  induction (map_to_list (r_users room)) as [|kv l IH]; csimpl; [done|].
  destruct (heap st !! kv.2); csimpl; lia.
Qed.

End ManagerFacts.

(** X13. After any sequence of joins, leaves, activity updates, cleanup
    callbacks and cleanup ticks on a new manager, guarded or not, no room
    has more than [maxUsersPerRoom] (20) members. *)
Theorem capacity_never_exceeded (ops : list RoomManager.Op) (roomId : string) :
  RoomManager.members (RoomManager.run RoomManager.new ops) roomId
    ≤ RoomManager.maxUsersPerRoom.
Proof.
  assert (within_capacity (RoomManager.run RoomManager.new ops)) as Hcap.
  { apply run_capacity_kept. intros r room Hr. simpl in Hr.
    by rewrite lookup_empty in Hr. }
  unfold RoomManager.members.
  destruct (RoomManager.rooms _ !! roomId) as [room|] eqn:Hr; [|lia].
  by eapply Hcap.
Qed.

(** X14. The color [assignColor] returns, when it is one of the palette
    [CONFIG.USER_COLORS], is the color of no member of the room; and for
    a room with fewer members than the palette has colors it is one of the
    palette. *)
Theorem assignColor_unused (st : RoomManager.t) (room : RoomManager.Room)
    (hue : nat) :
  (RoomManager.assignColor st room hue ∈ RoomManager.USER_COLORS →
   ∀ user, user ∈ RoomManager.room_members st room →
           RoomManager.u_color user ≠ RoomManager.assignColor st room hue) ∧
  (size (RoomManager.r_users room) < length RoomManager.USER_COLORS →
   RoomManager.assignColor st room hue ∈ RoomManager.USER_COLORS).
Proof.
  unfold RoomManager.assignColor.
  set (used := map RoomManager.u_color (RoomManager.room_members st room)).
  destruct (List.find _ RoomManager.USER_COLORS) as [color|] eqn:Hfind.
  - apply List.find_some in Hfind as [Hin Hfree].
    apply negb_true_iff, bool_decide_eq_false in Hfree.
    split; [|intros _; by apply list_elem_of_In].
    intros _ user Huser Heq. apply Hfree. rewrite <- Heq.
    by apply list_elem_of_fmap_2.
  - split.
    + intros Hin. exfalso. unfold RoomManager.generateRandomColor in Hin.
      simpl in Hin.
      repeat (apply elem_of_cons in Hin as [Hin|Hin]; [discriminate Hin|]).
      by apply elem_of_nil in Hin.
    + intros Hfew. exfalso.
      assert (incl RoomManager.USER_COLORS used) as Hincl.
      { intros color Hin.
        pose proof (List.find_none _ _ Hfind color Hin) as Hused.
        apply negb_false_iff, bool_decide_eq_true in Hused.
        by apply list_elem_of_In. }
      assert (List.NoDup RoomManager.USER_COLORS) as Hnd.
      { apply NoDup_ListNoDup. refine (bool_decide_unpack _ _).
        vm_compute. exact I. }
      pose proof (List.NoDup_incl_length Hnd Hincl) as Hlen.
      unfold used in Hlen. rewrite length_map in Hlen.
      pose proof (room_members_length st room). lia.
Qed.

(** X15. A tick of the periodic cleanup deletes exactly the rooms that are
    empty and inactive for more than 5 minutes or, with or without
    members, inactive for more than [roomTimeout]; every other room is
    left as it is, and the sessions, the user objects and the pending
    cleanup callbacks are not touched. *)
Theorem cleanupTick_deletes (st : RoomManager.t) (now : Z) (roomId : string) :
  RoomManager.rooms (RoomManager.cleanupTick st now) !! roomId =
    match RoomManager.rooms st !! roomId with
    | Some room =>
        if bool_decide
             (size (RoomManager.r_users room) = 0 ∧
              (300000 < now - RoomManager.r_lastActivity room)%Z ∨
              (RoomManager.roomTimeout < now - RoomManager.r_lastActivity room)%Z)
        then None else Some room
    | None => None
    end ∧
  RoomManager.users (RoomManager.cleanupTick st now) = RoomManager.users st ∧
  RoomManager.heap (RoomManager.cleanupTick st now) = RoomManager.heap st ∧
  RoomManager.timers (RoomManager.cleanupTick st now) = RoomManager.timers st.
Proof.
  split.
  - rewrite cleanupTick_lookup.
    destruct (RoomManager.rooms st !! roomId) as [room|]; [|done].
    assert (RoomManager.reaped room now =
            bool_decide
              (size (RoomManager.r_users room) = 0 ∧
               (300000 < now - RoomManager.r_lastActivity room)%Z ∨
               (RoomManager.roomTimeout < now - RoomManager.r_lastActivity room)%Z))
      as ->; [|done].
    unfold RoomManager.reaped.
    destruct (decide (size (RoomManager.r_users room) = 0)) as [Hs|Hs];
      [rewrite (bool_decide_eq_true_2 _ Hs) | rewrite (bool_decide_eq_false_2 _ Hs)];
      simpl;
      destruct (Z.gtb_spec (now - RoomManager.r_lastActivity room) 300000),
               (Z.gtb_spec (now - RoomManager.r_lastActivity room)
                           RoomManager.roomTimeout);
      symmetry;
      first [ apply bool_decide_eq_true_2; lia
            | apply bool_decide_eq_false_2; lia ].
  - unfold RoomManager.cleanupTick.
    by destruct (foldl_deleteRoom_lookup
                   (map fst (List.filter (fun kv => RoomManager.reaped kv.2 now)
                               (map_to_list (RoomManager.rooms st))))
                   st roomId) as (_ & ? & ? & ?).
Qed.

(** X16. A callback of [scheduleRoomCleanup] never deletes a room that has
    a member, whichever room it was scheduled for, and it does not touch
    the sessions: a join during the grace period keeps the room. *)
Theorem cleanup_callback_spares_members (st : RoomManager.t) (index : nat)
    (now : Z) (roomId : string) (room : RoomManager.Room) :
  RoomManager.rooms st !! roomId = Some room →
  size (RoomManager.r_users room) ≠ 0 →
  RoomManager.rooms (RoomManager.fireTimer st index now) !! roomId = Some room ∧
  RoomManager.users (RoomManager.fireTimer st index now) = RoomManager.users st ∧
  RoomManager.heap (RoomManager.fireTimer st index now) = RoomManager.heap st.
Proof.
  intros Hroom Hmembers. unfold RoomManager.fireTimer.
  destruct (RoomManager.timers st !! index) as [[scheduled due]|]; [|done].
  destruct (_ <=? _)%Z; [|done].
  unfold RoomManager.roomCleanupCallback. simpl.
  destruct (RoomManager.rooms st !! scheduled) as [room'|] eqn:Hroom'; [|done].
  case_bool_decide as Hempty; [|done].
  destruct (_ >? _)%Z; [|done].
  unfold RoomManager.deleteRoom. simpl. rewrite Hroom'. simpl.
  split; [|done]. rewrite lookup_delete_ne; [done|].
  intros <-. congruence.
Qed.

(** A run of X16: the callback scheduled by ann's leave runs after ben
    has joined. *)
Lemma cleanup_callback_spares_members_witness :
  ∃ room,
    RoomManager.rooms (RoomManager.fireTimer Revival.revived 0 1700000070001)
      !! "r1" = Some room ∧
    size (RoomManager.r_users room) = 1.
Proof.
  eexists. split.
  - refine (proj1 (cleanup_callback_spares_members Revival.revived 0
                     1700000070001 "r1" _ _ _)).
    + vm_compute. reflexivity.
    + vm_compute. discriminate.
  - vm_compute. reflexivity.
Defined.

(** X17. [broadcastToRoom] emits to exactly the sockets [broadcastToAll]
    emits to, except the excluded one; without an excluded socket the two
    agree; and for a room that does not exist both emit nothing. *)
Theorem broadcast_recipients (st : RoomManager.t) (roomId : string)
    (excludeSocketId : option string) (socketId : string) :
  (socketId ∈ RoomManager.broadcastToRoom st roomId excludeSocketId ↔
   socketId ∈ RoomManager.broadcastToAll st roomId ∧
   Some socketId ≠ excludeSocketId) ∧
  RoomManager.broadcastToRoom st roomId None =
    RoomManager.broadcastToAll st roomId ∧
  (RoomManager.rooms st !! roomId = None →
   RoomManager.broadcastToRoom st roomId excludeSocketId = [] ∧
   RoomManager.broadcastToAll st roomId = []).
Proof.
  unfold RoomManager.broadcastToRoom, RoomManager.broadcastToAll.
  destruct (RoomManager.rooms st !! roomId) as [room|]; [|split; [|done]].
  - split; [|split; [|done]].
    + rewrite !list_elem_of_fmap. split.
      * intros (user & -> & Hin).
        apply list_elem_of_In, List.filter_In in Hin as [Hin Hkeep].
        apply negb_true_iff, bool_decide_eq_false in Hkeep.
        split; [|done]. exists user. split; [done|]. by apply list_elem_of_In.
      * intros [(user & -> & Hin) Hne]. exists user. split; [done|].
        apply list_elem_of_In, List.filter_In. split; [by apply list_elem_of_In|].
        by apply negb_true_iff, bool_decide_eq_false.
    + f_equal. induction (RoomManager.room_members st room) as [|u l IH];
        [done|]. cbn [List.filter].
      rewrite bool_decide_eq_false_2 by done. cbn [negb]. by rewrite IH.
  - split; [by intros ?%elem_of_nil | by intros [?%elem_of_nil _]].
Qed.

(** X18. A second [leaveRoom] for the same socket returns [null] and
    changes nothing, whatever the first one did; so does a [leaveRoom]
    for a socket that has no session. *)
Theorem leaveRoom_twice (st : RoomManager.t) (socketId : string)
    (now later : Z) :
  let st' := (RoomManager.leaveRoom st socketId now).2 in
  RoomManager.leaveRoom st' socketId later = (None, st') ∧
  (RoomManager.users st !! socketId = None →
   RoomManager.leaveRoom st socketId now = (None, st)).
Proof.
  cbv zeta. split.
  - destruct (RoomManager.leaveRoom st socketId now) as [r st'] eqn:Hleave.
    simpl. unfold RoomManager.leaveRoom in Hleave.
    destruct (RoomManager.getUser st socketId) as [user|] eqn:Huser.
    + destruct (RoomManager.rooms st !! RoomManager.u_roomId user)
        as [room|] eqn:Hroom.
      * assert (RoomManager.users st' = delete socketId (RoomManager.users st))
          as Husers.
        { simpl in Hleave. injection Hleave as _ <-.
          by destruct (bool_decide _). }
        unfold RoomManager.leaveRoom, RoomManager.getUser.
        by rewrite Husers, lookup_delete_eq.
      * injection Hleave as _ <-. unfold RoomManager.leaveRoom.
        by rewrite Huser, Hroom.
    + injection Hleave as _ <-. unfold RoomManager.leaveRoom. by rewrite Huser.
  - intros Hnone. unfold RoomManager.leaveRoom, RoomManager.getUser.
    by rewrite Hnone.
Qed.

Section Rejoin.
Import RoomManager.

Lemma is_member_insert (st st' : t) (roomId userId : string)
    (target : string) (room room' : Room) :
  is_member st roomId userId →
  rooms st' = <[target := room']> (rooms st) →
  (rooms st !! target = Some room →
   is_Some (r_users room !! userId) → is_Some (r_users room' !! userId)) →
  (roomId = target → rooms st !! target = Some room) →
  is_member st' roomId userId.
Proof.
  intros (r & Hr & Hm) Hrooms Hkept Htarget. unfold is_member. rewrite Hrooms.
  destruct (decide (roomId = target)) as [->|Hne].
  - rewrite lookup_insert_eq. eexists. split; [done|].
    pose proof (Htarget eq_refl) as Hroom. apply Hkept; [done|].
    rewrite Hroom in Hr. by injection Hr as ->.
  - rewrite lookup_insert_ne by done. by exists r.
Qed.

(** What [leaveRoom] does to the maps for a session whose room exists. *)
Lemma leaveRoom_maps (st : t) (socketId : string) (now : Z) (user : User)
    (room : Room) :
  getUser st socketId = Some user →
  rooms st !! u_roomId user = Some room →
  rooms (leaveRoom st socketId now).2 =
    <[u_roomId user :=
        mkRoom (r_id room) (delete (u_id user) (r_users room))
          (r_operationLog room) (r_createdAt room) (r_lastActivity room)]>
      (rooms st) ∧
  users (leaveRoom st socketId now).2 = delete socketId (users st) ∧
  heap (leaveRoom st socketId now).2 = heap st.
Proof.
  intros Huser Hroom. unfold leaveRoom. rewrite Huser, Hroom.
  cbv zeta. by destruct (bool_decide _).
Qed.

End Rejoin.

(** X19. A second [joinRoom] for a socket that already has a session
    leaves a ghost: the member of the first join stays in its room while
    the socket's session becomes the new user, and after the socket
    leaves, the first member is still in its room and the socket has no
    session any more, so no [leaveRoom] can remove it. *)
Theorem rejoin_leaves_ghost (st : RoomManager.t) (socketId roomId : string)
    (username : option string) (now later : Z) (rnd : RoomManager.Random)
    (old : RoomManager.User) :
  RoomManager.getUser st socketId = Some old →
  is_member st (RoomManager.u_roomId old) (RoomManager.u_id old) →
  RoomManager.u_id old ≠
    RoomManager.generateUserId now (RoomManager.rnd_nonce rnd) →
  RoomManager.members st roomId < RoomManager.maxUsersPerRoom →
  let joined :=
    (RoomManager.joinRoom st socketId roomId username now rnd).2 in
  let left := (RoomManager.leaveRoom joined socketId later).2 in
  is_member joined (RoomManager.u_roomId old) (RoomManager.u_id old) ∧
  (∃ user, RoomManager.getUser joined socketId = Some user ∧
           RoomManager.u_id user =
             RoomManager.generateUserId now (RoomManager.rnd_nonce rnd)) ∧
  is_member left (RoomManager.u_roomId old) (RoomManager.u_id old) ∧
  RoomManager.getUser left socketId = None.
Proof.
  intros Hold Hmember Hfresh Hroom. cbv zeta.
  destruct (joinRoom_admitted st socketId roomId username now rnd Hroom)
    as (user & info & room & Hjoin & Hget & Hid & _ & Hrid).
  rewrite Hjoin. cbn [snd].
  set (joined := RoomManager.mkManager _ _ _ _).
  pose proof (getRoom_spec st roomId now) as Hspec. cbv zeta in Hspec.
  rewrite <- Hget in Hspec. destruct Hspec as (_ & _ & _ & _ & _ & Hcase).
  assert (RoomManager.getUser joined socketId = Some user) as Huser.
  { unfold RoomManager.getUser, joined. cbn [RoomManager.users RoomManager.heap].
    rewrite lookup_insert_eq. cbn [mbind option_bind].
    rewrite lookup_app_r by done. by rewrite Nat.sub_diag. }
  assert (is_member joined (RoomManager.u_roomId old) (RoomManager.u_id old))
    as Hjoined.
  { eapply (is_member_insert st joined _ _ roomId room); [done|reflexivity| |].
    - intros _ Hin. cbn [RoomManager.r_users].
      by rewrite lookup_insert_ne by (by rewrite <- Hid in *).
    - intros Heq. destruct Hcase as [[Hsome _]|[Hnone _]]; [done|].
      destruct Hmember as (r & Hr & _). rewrite Heq in Hr. congruence. }
  split; [exact Hjoined|]. split; [by exists user|].
  pose (entered :=
          RoomManager.mkRoom (RoomManager.r_id room)
            (<[RoomManager.generateUserId now (RoomManager.rnd_nonce rnd) :=
                 length (RoomManager.heap st)]> (RoomManager.r_users room))
            (RoomManager.r_operationLog room) (RoomManager.r_createdAt room)
            now).
  assert (RoomManager.rooms joined !! RoomManager.u_roomId user = Some entered)
    as Hentered.
  { rewrite Hrid. unfold joined. cbn [RoomManager.rooms].
    by rewrite lookup_insert_eq. }
  destruct (leaveRoom_maps joined socketId later user entered Huser Hentered)
    as (Hrooms & Husers & _).
  split.
  - eapply (is_member_insert joined _ _ _ _ entered _ Hjoined Hrooms).
    + intros _ Hin. cbn [RoomManager.r_users].
      rewrite lookup_delete_ne; [exact Hin|]. rewrite Hid. congruence.
    + intros _. exact Hentered.
  - unfold RoomManager.getUser. rewrite Husers, lookup_delete_eq. done.
Qed.

(** A run of X19: ann's socket joins room [r1] a second time and leaves. *)
Lemma rejoin_leaves_ghost_witness :
  let joined :=
    (RoomManager.joinRoom Revival.joined_once "socketA" "r1" (Some "ann")
       1700000001000 Scenario.rnd_ben).2 in
  RoomManager.members joined "r1" = 2 ∧
  is_member (RoomManager.leaveRoom joined "socketA" 1700000002000).2 "r1"
    "user_1700000000000_a1b2c3d4e" ∧
  RoomManager.getUser (RoomManager.leaveRoom joined "socketA" 1700000002000).2
    "socketA" = None.
Proof.
  cbv zeta. split; [vm_compute; reflexivity|].
  refine (proj2 (proj2 (rejoin_leaves_ghost Revival.joined_once "socketA" "r1"
                          (Some "ann") 1700000001000 1700000002000
                          Scenario.rnd_ben
                          (RoomManager.mkUser "user_1700000000000_a1b2c3d4e"
                             "socketA" "ann" "#FF6B6B" "r1" 1700000000000
                             1700000000000) _ _ _ _))).
  - vm_compute. reflexivity.
  - eexists. split; [vm_compute; reflexivity|]. vm_compute. eauto.
  - vm_compute. discriminate.
  - vm_compute. lia.
Defined.

(** ** The socket handlers *)

Section Handlers.
Import RoomManager.

(** What every handler does first: the user of the socket is looked up,
    the activity is recorded, and the room of the user is fetched or
    created.  The log the handler then works on is the log of the room,
    or a new log when the room does not exist. *)
Lemma enter_spec (st : t) (socketId : string) (now : Z) (user : User) :
  getUser st socketId = Some user →
  let result := getRoom (updateActivity st socketId now) (u_roomId user) now in
  users result.2 = users st ∧
  getUser result.2 socketId = Some (touch_user now user) ∧
  rooms result.2 !! u_roomId user = Some result.1 ∧
  r_operationLog result.1 =
    default (OperationLog.new (u_roomId user) now)
            (Server.room_log st (u_roomId user)) ∧
  r_users result.1 =
    default ∅ (r_users <$> rooms st !! u_roomId user) ∧
  ∀ other, other ≠ u_roomId user →
           Server.room_log result.2 other = Server.room_log st other.
Proof.
  intros Huser. cbv zeta. unfold getUser in Huser.
  destruct (users st !! socketId) as [address|] eqn:Hs; [|done].
  simpl in Huser.
  set (st1 := updateActivity st socketId now).
  assert (rooms st1 = alter (touch_room now) (u_roomId user) (rooms st) ∧
          users st1 = users st ∧
          heap st1 = <[address := touch_user now user]> (heap st))
    as (Hr1 & Hu1 & Hh1).
  { unfold st1, updateActivity. by rewrite Hs, Huser. }
  assert (heap st1 !! address = Some (touch_user now user)) as Hh1'.
  { rewrite Hh1. apply list_lookup_insert_eq. by eapply lookup_lt_Some. }
  unfold Server.room_log.
  destruct (rooms st !! u_roomId user) as [room|] eqn:Hroom.
  - assert (getRoom st1 (u_roomId user) now = (touch_room now room, st1)) as ->.
    { unfold getRoom. by rewrite Hr1, lookup_alter_eq, Hroom. }
    simpl. split; [done|].
    split; [unfold getUser; by rewrite Hu1, Hs|].
    split; [by rewrite Hr1, lookup_alter_eq, Hroom|].
    split; [done|]. split; [done|].
    intros other Hne. by rewrite Hr1, lookup_alter_ne.
  - set (fresh := mkRoom (u_roomId user) ∅
                    (OperationLog.new (u_roomId user) now) now now).
    assert (getRoom st1 (u_roomId user) now =
            (fresh, with_rooms st1 (<[u_roomId user := fresh]> (rooms st1))))
      as ->.
    { unfold getRoom, createRoom. by rewrite Hr1, lookup_alter_eq, Hroom. }
    simpl. split; [done|].
    split; [unfold getUser; simpl; by rewrite Hu1, Hs|].
    split; [apply lookup_insert_eq|].
    split; [done|]. split; [done|].
    intros other Hne. rewrite lookup_insert_ne by done.
    by rewrite Hr1, lookup_alter_ne.
Qed.

(** What every handler does last: the room keeps its members and gets
    the log the handler produced. *)
Lemma set_log_spec (st : t) (roomId : string) (room : Room)
    (log : OperationLog.t) (socketId : string) :
  Server.room_log (Server.set_log st roomId room log) roomId = Some log ∧
  (∀ other, other ≠ roomId →
     Server.room_log (Server.set_log st roomId room log) other =
       Server.room_log st other) ∧
  users (Server.set_log st roomId room log) = users st ∧
  getUser (Server.set_log st roomId room log) socketId = getUser st socketId.
Proof.
  unfold Server.room_log, Server.set_log. simpl.
  split; [by rewrite lookup_insert_eq|]. split; [|done].
  intros other Hne. by rewrite lookup_insert_ne.
Qed.

End Handlers.

Section UndoTwice.
Import OperationLog.

(** An undo right after an undo of the same id fails and changes nothing. *)
Lemma undoOperation_twice (log : t) (i u u' : string) (n n' : Z) :
  ∃ error,
    undoOperation (undoOperation log i u n).2 i u' n' =
      (Failure error, (undoOperation log i u n).2).
Proof.
  destruct (getOperation log i) as [op|] eqn:Hget.
  - destruct (decide (op_state op = STATES_ACTIVE)) as [Hact|Hact].
    + destruct (undoOperation_active log i u n op Hget Hact)
        as (pre & post & _ & _ & -> & Hget').
      simpl. eexists. by apply (undoOperation_inactive _ _ _ _ _ Hget').
    + rewrite (undoOperation_inactive _ _ _ _ _ Hget Hact). simpl.
      eexists. by apply undoOperation_inactive with op.
  - rewrite (undoOperation_missing _ _ _ _ Hget). simpl.
    eexists. by apply undoOperation_missing.
Qed.

End UndoTwice.

Section HandlerSpecs.
Import RoomManager.

(** The [undo] handler once the target id is known. *)
Lemma onUndo_spec (st : t) (socketId : string) (operationId : option string)
    (now : Z) (user : User) (i : string) :
  getUser st socketId = Some user →
  match Server.given operationId with
  | Some j => Some j
  | None =>
      match OperationLog.getLastActiveOperation (Server.entered_log st user now) with
      | Some lastOp => Server.given (Some (OperationLog.op_id lastOp))
      | None => None
      end
  end = Some i →
  let undone :=
    OperationLog.undoOperation (Server.entered_log st user now) i (u_id user) now in
  let result := Server.onUndo st socketId operationId now in
  result.1 =
    match undone.1 with
    | OperationLog.Success _ =>
        [Server.mkEmit (Server.Everyone (u_roomId user))
                       (Server.RemoteUndo (u_id user) i now)]
    | OperationLog.Failure _ => []
    end ∧
  Server.room_log result.2 (u_roomId user) = Some undone.2 ∧
  (∀ other, other ≠ u_roomId user →
            Server.room_log result.2 other = Server.room_log st other) ∧
  getUser result.2 socketId = Some (touch_user now user).
Proof.
  intros Huser Htarget. cbv zeta. unfold Server.onUndo. rewrite Huser.
  pose proof (enter_spec st socketId now user Huser) as E. cbv zeta in E.
  destruct (getRoom (updateActivity st socketId now) (u_roomId user) now)
    as [room st2].
  simpl in E. destruct E as (Hu & Hg & Hr & Hlog & _ & Hother).
  fold (Server.entered_log st user now) in Hlog. rewrite Hlog, Htarget.
  destruct (OperationLog.undoOperation (Server.entered_log st user now) i
              (u_id user) now) as [res log'].
  simpl.
  destruct (set_log_spec st2 (u_roomId user) room log' socketId)
    as (Hl & Ho & _ & Hg').
  split; [done|]. split; [done|]. split.
  - intros other Hne. rewrite Ho by done. by apply Hother.
  - by rewrite Hg'.
Qed.

Lemma given_some (i : string) : i ≠ "" → Server.given (Some i) = Some i.
Proof. intros Hi. unfold Server.given. by rewrite bool_decide_eq_false_2. Qed.

(** The [redo] handler. *)
Lemma onRedo_spec (st : t) (socketId : string) (operationId : option string)
    (now : Z) (user : User) (i : string) :
  getUser st socketId = Some user →
  match Server.given operationId with
  | Some j => Some j
  | None =>
      match OperationLog.getLastUndoneOperation (Server.entered_log st user now) with
      | Some lastOp => Server.given (Some (OperationLog.op_id lastOp))
      | None => None
      end
  end = Some i →
  let redone :=
    OperationLog.redoOperation (Server.entered_log st user now) i (u_id user) now in
  let result := Server.onRedo st socketId operationId now in
  result.1 =
    match redone.1 with
    | OperationLog.Success _ =>
        [Server.mkEmit (Server.Everyone (u_roomId user))
                       (Server.RemoteRedo (u_id user) i now)]
    | OperationLog.Failure _ => []
    end ∧
  Server.room_log result.2 (u_roomId user) = Some redone.2.
Proof.
  intros Huser Htarget. cbv zeta. unfold Server.onRedo. rewrite Huser.
  pose proof (enter_spec st socketId now user Huser) as E. cbv zeta in E.
  destruct (getRoom (updateActivity st socketId now) (u_roomId user) now)
    as [room st2].
  simpl in E. destruct E as (_ & _ & _ & Hlog & _ & _).
  fold (Server.entered_log st user now) in Hlog. rewrite Hlog, Htarget.
  destruct (OperationLog.redoOperation (Server.entered_log st user now) i
              (u_id user) now) as [res log'].
  simpl.
  by destruct (set_log_spec st2 (u_roomId user) room log' socketId)
    as (Hl & _).
Qed.

(** The [draw_end] handler. *)
Lemma onDrawEnd_spec (st : t) (socketId stroke : string) (sent now : Z)
    (nonce : string) (user : User) :
  getUser st socketId = Some user →
  let added :=
    OperationLog.addOperation (Server.entered_log st user now) (u_id user)
      "stroke" (OperationLog.Stroke stroke) now nonce in
  let result := Server.onDrawEnd st socketId stroke sent now nonce in
  result.1 =
    [Server.mkEmit (Server.Others (u_roomId user) socketId)
       (Server.RemoteDrawEnd (u_id user) stroke
          (OperationLog.op_id added.1) sent)] ∧
  Server.room_log result.2 (u_roomId user) = Some added.2 ∧
  (∀ other, other ≠ u_roomId user →
            Server.room_log result.2 other = Server.room_log st other) ∧
  users result.2 = users st ∧
  (r_users <$> rooms result.2 !! u_roomId user) =
    Some (default ∅ (r_users <$> rooms st !! u_roomId user)).
Proof.
  intros Huser. cbv zeta. unfold Server.onDrawEnd. rewrite Huser.
  pose proof (enter_spec st socketId now user Huser) as E. cbv zeta in E.
  destruct (getRoom (updateActivity st socketId now) (u_roomId user) now)
    as [room st2].
  simpl in E. destruct E as (Hu & Hg & Hr & Hlog & Hmembers & Hother).
  fold (Server.entered_log st user now) in Hlog. rewrite Hlog.
  destruct (OperationLog.addOperation (Server.entered_log st user now)
              (u_id user) "stroke" (OperationLog.Stroke stroke) now nonce)
    as [operation log'].
  simpl.
  destruct (set_log_spec st2 (u_roomId user) room log' socketId)
    as (Hl & Ho & _ & _).
  split; [done|]. split; [done|]. split; [|split; [done|]].
  - intros other Hne. rewrite Ho by done. by apply Hother.
  - rewrite lookup_insert_eq. simpl. by rewrite Hmembers.
Qed.

(** The [clear_canvas] handler. *)
Lemma onClearCanvas_spec (st : t) (socketId : string) (now : Z)
    (nonce : string) (user : User) :
  getUser st socketId = Some user →
  let cleared :=
    OperationLog.clearOperations (Server.entered_log st user now) (u_id user)
      now nonce in
  let result := Server.onClearCanvas st socketId now nonce in
  result.1 =
    [Server.mkEmit (Server.Everyone (u_roomId user))
       (Server.RemoteClear (u_id user) now)] ∧
  Server.room_log result.2 (u_roomId user) = Some cleared.2.
Proof.
  intros Huser. cbv zeta. unfold Server.onClearCanvas. rewrite Huser.
  pose proof (enter_spec st socketId now user Huser) as E. cbv zeta in E.
  destruct (getRoom (updateActivity st socketId now) (u_roomId user) now)
    as [room st2].
  simpl in E. destruct E as (_ & _ & _ & Hlog & _ & _).
  fold (Server.entered_log st user now) in Hlog. rewrite Hlog.
  destruct (OperationLog.clearOperations (Server.entered_log st user now)
              (u_id user) now nonce) as [clearOp log'].
  simpl.
  by destruct (set_log_spec st2 (u_roomId user) room log' socketId) as (Hl & _).
Qed.

End HandlerSpecs.

(** X20. A repeated [undo] message with the same non-empty operation id is
    silent: whatever the first one did, the second one emits nothing and
    leaves the log of every room as the first one left it. *)
Theorem duplicate_undo_is_silent (st : RoomManager.t) (socketId i : string)
    (now later : Z) :
  i ≠ "" →
  let first := Server.onUndo st socketId (Some i) now in
  let second := Server.onUndo first.2 socketId (Some i) later in
  second.1 = [] ∧
  ∀ roomId, Server.room_log second.2 roomId = Server.room_log first.2 roomId.
Proof.
  intros Hi. cbv zeta.
  destruct (RoomManager.getUser st socketId) as [user|] eqn:Huser.
  - pose proof (onUndo_spec st socketId (Some i) now user i Huser) as H1.
    rewrite (given_some i Hi) in H1. specialize (H1 eq_refl). cbv zeta in H1.
    destruct H1 as (_ & Hlog1 & _ & Hget1).
    set (first := Server.onUndo st socketId (Some i) now) in *.
    pose proof (onUndo_spec first.2 socketId (Some i) later
                  (RoomManager.touch_user now user) i Hget1) as H2.
    rewrite (given_some i Hi) in H2. specialize (H2 eq_refl). cbv zeta in H2.
    unfold Server.entered_log in H2 at 1 2. simpl in H2.
    rewrite Hlog1 in H2. simpl in H2.
    destruct (undoOperation_twice (Server.entered_log st user now) i
                (RoomManager.u_id user) (RoomManager.u_id user) now later)
      as (error & Htwice).
    rewrite Htwice in H2. simpl in H2.
    destruct H2 as (Hemit & Hlog2 & Hother2 & _).
    split; [exact Hemit|]. intros roomId.
    destruct (decide (roomId = RoomManager.u_roomId user)) as [->|Hne].
    + by rewrite Hlog2, Hlog1.
    + by apply Hother2.
  - unfold Server.onUndo. rewrite Huser. simpl. by rewrite Huser.
Qed.

(** A run of X20: ben sends the same undo twice. *)
Lemma duplicate_undo_is_silent_witness :
  let first :=
    Server.onUndo Revival.evening_drawn "socketB"
      (Some "user_1700000001000_f5g6h7i8j_1700000600010_q7w2e5r8t")
      1700000700000 in
  length first.1 = 1 ∧
  (Server.onUndo first.2 "socketB"
     (Some "user_1700000001000_f5g6h7i8j_1700000600010_q7w2e5r8t")
     1700000700050).1 = [].
Proof.
  split; [vm_compute; reflexivity|].
  refine (proj1 (duplicate_undo_is_silent Revival.evening_drawn "socketB"
                   "user_1700000001000_f5g6h7i8j_1700000600010_q7w2e5r8t"
                   1700000700000 1700000700050 _)).
  discriminate.
Defined.

(** X21. An [undo] message without an operation id undoes the newest
    active operation of the sender's room, whoever made it: when the ids
    of the log are pairwise distinct, [remote_undo] with that id goes to
    everyone in the room, and the active operations of the room are the
    former ones without the last. *)
Theorem undo_without_id_is_global (st : RoomManager.t) (socketId : string)
    (now : Z) (user : RoomManager.User) (log : OperationLog.t)
    (op : OperationLog.Operation) :
  RoomManager.getUser st socketId = Some user →
  Server.room_log st (RoomManager.u_roomId user) = Some log →
  NoDup (map OperationLog.op_id (OperationLog.operations log)) →
  OperationLog.getLastActiveOperation log = Some op →
  OperationLog.op_id op ≠ "" →
  let result := Server.onUndo st socketId None now in
  result.1 =
    [Server.mkEmit (Server.Everyone (RoomManager.u_roomId user))
       (Server.RemoteUndo (RoomManager.u_id user) (OperationLog.op_id op) now)] ∧
  ∃ log', Server.room_log result.2 (RoomManager.u_roomId user) = Some log' ∧
          OperationLog.getActiveOperations log' =
            removelast (OperationLog.getActiveOperations log).
Proof.
  intros Huser Hlog Hnd Hlast Hid. cbv zeta.
  assert (Server.entered_log st user now = log) as Hentered
    by (unfold Server.entered_log; by rewrite Hlog).
  pose proof (onUndo_spec st socketId None now user (OperationLog.op_id op)
                Huser) as H.
  rewrite Hentered in H.
  change (Server.given None) with (@None string) in H. cbv beta iota in H.
  rewrite Hlast in H. specialize (H (given_some _ Hid)). cbv zeta in H.
  destruct (undoOperation_last_active log op (RoomManager.u_id user) now
              Hnd Hlast) as (Hundo & _ & Hactive).
  rewrite Hundo in H at 1. simpl in H. destruct H as (Hemit & Hlog' & _).
  split; [exact Hemit|]. eexists. split; [exact Hlog'|exact Hactive].
Qed.

(** A run of X21: ben, after two strokes, sends an undo without an id. *)
Lemma undo_without_id_is_global_witness :
  ∃ log',
    Server.room_log
      (Server.onUndo Revival.evening_drawn "socketB" None 1700000700000).2
      "r1" = Some log' ∧
    map OperationLog.op_data (OperationLog.getActiveOperations log') =
      [OperationLog.Stroke "s1"].
Proof.
  edestruct (undo_without_id_is_global Revival.evening_drawn "socketB"
               1700000700000) as (_ & log' & Hlog & Hactive).
  - vm_compute. reflexivity.
  - vm_compute. reflexivity.
  - refine (bool_decide_unpack _ _). vm_compute. exact I.
  - vm_compute. reflexivity.
  - discriminate.
  - exists log'. split; [exact Hlog|]. rewrite Hactive.
    vm_compute. reflexivity.
Defined.

(** X22. A [redo] message without an operation id redoes the undone
    operation that comes last in the log of the sender's room, whoever
    undid it and whenever: when the ids of the log are pairwise distinct,
    [remote_redo] with that id goes to everyone in the room, and the
    active operations of the room are the former ones and that entry. *)
Theorem redo_without_id_is_positional (st : RoomManager.t) (socketId : string)
    (now : Z) (user : RoomManager.User) (log : OperationLog.t)
    (op : OperationLog.Operation) :
  RoomManager.getUser st socketId = Some user →
  Server.room_log st (RoomManager.u_roomId user) = Some log →
  NoDup (map OperationLog.op_id (OperationLog.operations log)) →
  OperationLog.getLastUndoneOperation log = Some op →
  OperationLog.op_id op ≠ "" →
  let result := Server.onRedo st socketId None now in
  result.1 =
    [Server.mkEmit (Server.Everyone (RoomManager.u_roomId user))
       (Server.RemoteRedo (RoomManager.u_id user) (OperationLog.op_id op) now)] ∧
  ∃ log', Server.room_log result.2 (RoomManager.u_roomId user) = Some log' ∧
          OperationLog.getActiveOperations log' ≡ₚ
            OperationLog.mark_redone (RoomManager.u_id user) now op ::
              OperationLog.getActiveOperations log.
Proof.
  intros Huser Hlog Hnd Hlast Hid. cbv zeta.
  assert (Server.entered_log st user now = log) as Hentered
    by (unfold Server.entered_log; by rewrite Hlog).
  pose proof (onRedo_spec st socketId None now user (OperationLog.op_id op)
                Huser) as H.
  rewrite Hentered in H.
  change (Server.given None) with (@None string) in H. cbv beta iota in H.
  rewrite Hlast in H. specialize (H (given_some _ Hid)). cbv zeta in H.
  destruct (redoOperation_last_undone log op (RoomManager.u_id user) now
              Hnd Hlast) as (Hredo & _ & Hactive).
  rewrite Hredo in H at 1. simpl in H. destruct H as (Hemit & Hlog').
  split; [exact Hemit|]. eexists. split; [exact Hlog'|exact Hactive].
Qed.

(** A run of X22: ben has undone his second stroke and then his first;
    a redo without an id brings back the second, not the one undone
    last. *)
Lemma redo_without_id_is_positional_witness :
  (Server.onRedo Revival.evening_undone "socketB" None 1700000720000).1 =
    [Server.mkEmit (Server.Everyone "r1")
       (Server.RemoteRedo "user_1700000001000_f5g6h7i8j"
          "user_1700000001000_f5g6h7i8j_1700000600010_q7w2e5r8t"
          1700000720000)].
Proof.
  edestruct (redo_without_id_is_positional Revival.evening_undone "socketB"
               1700000720000) as (Hemit & _).
  - vm_compute. reflexivity.
  - vm_compute. reflexivity.
  - refine (bool_decide_unpack _ _). vm_compute. exact I.
  - vm_compute. reflexivity.
  - discriminate.
  - vm_compute in Hemit |- *. exact Hemit.
Defined.

(** X23. A session whose room has been deleted can still draw: [draw_end]
    creates the room again, without members, logs the stroke there as its
    only operation, and leaves the sessions as they are. *)
Theorem draw_end_recreates_room (st : RoomManager.t)
    (socketId stroke : string) (sent now : Z) (nonce : string)
    (user : RoomManager.User) :
  RoomManager.getUser st socketId = Some user →
  RoomManager.rooms st !! RoomManager.u_roomId user = None →
  let result := Server.onDrawEnd st socketId stroke sent now nonce in
  ∃ room op,
    RoomManager.rooms result.2 !! RoomManager.u_roomId user = Some room ∧
    RoomManager.r_users room = ∅ ∧
    OperationLog.operations (RoomManager.r_operationLog room) = [op] ∧
    OperationLog.op_userId op = RoomManager.u_id user ∧
    OperationLog.op_data op = OperationLog.Stroke stroke ∧
    result.1 =
      [Server.mkEmit (Server.Others (RoomManager.u_roomId user) socketId)
         (Server.RemoteDrawEnd (RoomManager.u_id user) stroke
            (OperationLog.op_id op) sent)] ∧
    RoomManager.users result.2 = RoomManager.users st.
Proof.
  intros Huser Hgone. cbv zeta.
  pose proof (onDrawEnd_spec st socketId stroke sent now nonce user Huser) as H.
  cbv zeta in H. destruct H as (Hemit & Hlog & _ & Husers & Hmembers).
  rewrite Hgone in Hmembers. simpl in Hmembers.
  unfold Server.room_log in Hlog.
  destruct (RoomManager.rooms (Server.onDrawEnd st socketId stroke sent now nonce).2
              !! RoomManager.u_roomId user) as [room|]; [|done].
  simpl in Hlog, Hmembers. injection Hlog as Hlog. injection Hmembers as Hmembers.
  pose proof (addOperation_operations (Server.entered_log st user now)
                (RoomManager.u_id user) "stroke" (OperationLog.Stroke stroke)
                now nonce) as Hadd.
  cbv zeta in Hadd. destruct Hadd as (Hops & _ & _ & _ & Huid).
  assert (OperationLog.operations (Server.entered_log st user now) = []) as Hnew.
  { unfold Server.entered_log, Server.room_log. by rewrite Hgone. }
  rewrite Hnew in Hops. simpl in Hops.
  eexists room, _. split; [done|]. split; [done|].
  split; [rewrite Hlog; exact Hops|].
  split; [exact Huid|]. split; [done|]. split; [exact Hemit|exact Husers].
Qed.

(** A run of X23: ann, idle for an hour and her room deleted, ends a
    stroke. *)
Lemma draw_end_recreates_room_witness :
  RoomManager.members
    (Server.onDrawEnd Revival.stranded "socketA" "s9" 1700003960000
       1700003960010 "p0o9i8u7y").2 "r1" = 0 ∧
  ∃ room op,
    RoomManager.rooms
      (Server.onDrawEnd Revival.stranded "socketA" "s9" 1700003960000
         1700003960010 "p0o9i8u7y").2 !! "r1" = Some room ∧
    OperationLog.operations (RoomManager.r_operationLog room) = [op].
Proof.
  split; [vm_compute; reflexivity|].
  edestruct (draw_end_recreates_room Revival.stranded "socketA" "s9"
               1700003960000 1700003960010 "p0o9i8u7y")
    as (room & op & Hroom & _ & Hops & _).
  - vm_compute. reflexivity.
  - vm_compute. reflexivity.
  - exists room, op. split; [exact Hroom | exact Hops].
Defined.

(** X24. The operation id that [draw_end] broadcasts names the stroke it
    logged: when the generated id is not yet in the room's log, the
    message goes to the others in the room, and [getOperation] with the
    broadcast id finds an ['active'] operation of the sender that carries
    the stroke. *)
Theorem draw_end_broadcasts_logged_id (st : RoomManager.t)
    (socketId stroke : string) (sent now : Z) (nonce : string)
    (user : RoomManager.User) (log : OperationLog.t) :
  RoomManager.getUser st socketId = Some user →
  Server.room_log st (RoomManager.u_roomId user) = Some log →
  OperationLog.generateOperationId (RoomManager.u_id user) now nonce
    ∉ map OperationLog.op_id (OperationLog.operations log) →
  let result := Server.onDrawEnd st socketId stroke sent now nonce in
  ∃ log' op,
    result.1 =
      [Server.mkEmit (Server.Others (RoomManager.u_roomId user) socketId)
         (Server.RemoteDrawEnd (RoomManager.u_id user) stroke
            (OperationLog.op_id op) sent)] ∧
    Server.room_log result.2 (RoomManager.u_roomId user) = Some log' ∧
    OperationLog.getOperation log' (OperationLog.op_id op) = Some op ∧
    OperationLog.op_data op = OperationLog.Stroke stroke ∧
    OperationLog.op_userId op = RoomManager.u_id user ∧
    OperationLog.op_state op = "active" ∧
    last (OperationLog.operations log') = Some op.
Proof.
  intros Huser Hlog Hfresh. cbv zeta.
  assert (Server.entered_log st user now = log) as Hentered
    by (unfold Server.entered_log; by rewrite Hlog).
  pose proof (onDrawEnd_spec st socketId stroke sent now nonce user Huser) as H.
  cbv zeta in H. rewrite Hentered in H. destruct H as (Hemit & Hlog' & _).
  pose proof (addOperation_operations log (RoomManager.u_id user) "stroke"
                (OperationLog.Stroke stroke) now nonce) as Hadd.
  cbv zeta in Hadd. destruct Hadd as (Hops & Hid & _ & Hst & Huid).
  eexists _, _. split; [exact Hemit|]. split; [exact Hlog'|].
  split; [|split; [done|split; [exact Huid|split; [exact Hst|]]]].
  - unfold OperationLog.getOperation. rewrite Hops.
    apply find_first.
    + eapply Forall_impl; [apply (fresh_in_kept log _ _ Hfresh)|].
      intros o Ho. unfold OperationLog.has_id. apply bool_decide_eq_false.
      by rewrite Hid.
    + unfold OperationLog.has_id. by apply bool_decide_eq_true.
  - rewrite Hops. apply last_snoc.
Qed.

(** A run of X24: ben, alone in room [r1] in the evening, ends a stroke. *)
Lemma draw_end_broadcasts_logged_id_witness :
  ∃ log' op,
    Server.room_log
      (Server.onDrawEnd Revival.evening "socketB" "s1" 1700000500000
         1700000500010 "k3j9x0a1b").2 "r1" = Some log' ∧
    last (OperationLog.operations log') = Some op ∧
    OperationLog.op_data op = OperationLog.Stroke "s1".
Proof.
  edestruct (draw_end_broadcasts_logged_id Revival.evening "socketB" "s1"
               1700000500000 1700000500010 "k3j9x0a1b")
    as (log' & op & _ & Hlog & _ & Hdata & _ & _ & Hlast).
  - vm_compute. reflexivity.
  - vm_compute. reflexivity.
  - refine (bool_decide_unpack _ _). vm_compute. exact I.
  - exists log', op. split; [exact Hlog|]. split; [exact Hlast | exact Hdata].
Defined.

(** X25. After a [clear_canvas] message from a socket with a session, the
    generated id not being in the room's log before, [remote_clear] goes
    to everyone in the room and the state rebuilt from the room's log has
    no stroke and one active operation. *)
Theorem clear_canvas_blanks_room (st : RoomManager.t) (socketId : string)
    (now : Z) (nonce : string) (user : RoomManager.User) :
  RoomManager.getUser st socketId = Some user →
  OperationLog.generateOperationId (RoomManager.u_id user) now nonce
    ∉ map OperationLog.op_id
          (OperationLog.operations (Server.entered_log st user now)) →
  let result := Server.onClearCanvas st socketId now nonce in
  result.1 =
    [Server.mkEmit (Server.Everyone (RoomManager.u_roomId user))
       (Server.RemoteClear (RoomManager.u_id user) now)] ∧
  OperationLog.rebuildState <$>
    Server.room_log result.2 (RoomManager.u_roomId user) = Some ([], 1).
Proof.
  intros Huser Hfresh. cbv zeta.
  destruct (onClearCanvas_spec st socketId now nonce user Huser)
    as (Hemit & Hlog).
  split; [exact Hemit|].
  apply fmap_Some. eexists. split; [exact Hlog|]. symmetry.
  destruct (clearOperations_active _ _ _ _ Hfresh) as [Hact Hty].
  unfold OperationLog.rebuildState. rewrite Hact. cbn [List.filter].
  by rewrite Hty.
Qed.

(** A run of X25: ben clears the room after his two strokes. *)
Lemma clear_canvas_blanks_room_witness :
  OperationLog.rebuildState <$>
    Server.room_log
      (Server.onClearCanvas Revival.evening_drawn "socketB" 1700000800000
         "c1l2e3a4r").2 "r1" = Some ([], 1).
Proof.
  edestruct (clear_canvas_blanks_room Revival.evening_drawn "socketB"
               1700000800000 "c1l2e3a4r") as (_ & Hstate).
  - vm_compute. reflexivity.
  - refine (bool_decide_unpack _ _). vm_compute. exact I.
  - vm_compute in Hstate |- *. exact Hstate.
Defined.
